(** * Historical court pipeline (Agent.py)

    The program is a table of agents around four small tool functions that
    share one session dictionary.  This development embeds the tool
    functions, the operating-system calls [write_file] makes, the agent table
    and the runtime that drives it, and then proves the properties stated for
    them.  Definitions come first, theorems after. *)

From Stdlib Require Import ZArith Ascii String List Lia.
From stdpp Require Import base option list strings gmap pretty.

Set Warnings "-register-all".
Local Open Scope string_scope.
Local Open Scope list_scope.

(** ** Values held by the session dictionary

    [reset_case] stores strings, integers and lists; [append_state] tests
    [isinstance(existing, list)].  Nothing else is ever stored by the tools. *)

Inductive value :=
| VStr (s : string)
| VInt (z : Z)
| VList (items : list value).

(** [isinstance(v, list)] *)
Definition is_list (v : value) : bool :=
  match v with
  | VList _ => true
  | _ => false
  end.

(** A dictionary literal returned by a tool, in the order it is written. *)
Abbreviation pydict := (list (string * string)).

(** The part of [ToolContext] the tools touch: [tool_context.state] and
    [tool_context.actions.escalate]. *)
Record ToolContext := mkToolContext {
  state : gmap string value;
  escalate : bool
}.

Definition with_state (tool_context : ToolContext) (st : gmap string value)
  : ToolContext :=
  {| state := st; escalate := escalate tool_context |}.

(** ** The file system under [write_file]

    [os.makedirs], [os.path.join], [open] and [f.write] as Python gives them
    on Linux, without symbolic links, permissions, a full disk or the
    interpreter's recursion limit.  A directory tree maps resolved paths
    (lists of names from the root, each as the bytes the kernel holds) to
    nodes; the root is always a directory.  A call either returns or raises,
    and what it changed before raising stays changed.

    A Python [str] is held as the bytes of its UTF-8 encoding; a lone
    surrogate, which a [str] may hold and UTF-8 refuses, as the three bytes
    the same scheme gives its code point ([ED], then [A0..BF], then
    [80..BF]). *)

Module Posix.

(** [OSError] is the plain [OSError] of errno [ENAMETOOLONG], [ValueError]
    the one of an embedded null byte. *)
Inductive exn :=
| FileNotFoundError
| FileExistsError
| NotADirectoryError
| IsADirectoryError
| OSError
| ValueError
| UnicodeEncodeError.

Inductive node :=
| Dir
| File (content : string).

Record FS := mkFS {
  cwd : list string;
  tree : gmap (list string) node
}.

(** Calls into the operating system: state passing with exceptions. *)
Definition OS (A : Type) : Type := FS → FS * (exn + A).

Definition ok {A} (a : A) : OS A := λ fs, (fs, inr a).
Definition raise {A} (e : exn) : OS A := λ fs, (fs, inl e).
#[global] Instance OS_ret : MRet OS := @ok.
#[global] Instance OS_bind : MBind OS := λ A B k m fs,
  match m fs with
  | (fs1, inr a) => k a fs1
  | (fs1, inl e) => (fs1, inl e)
  end.

(** *** Strings as the kernel and the encoder see them *)

(** Bytes in one name, and in one path with its terminating NUL. *)
Definition NAME_MAX : nat := 255.
Definition PATH_MAX : nat := 4096.

Definition code (c : ascii) : nat := nat_of_ascii c.

(** A surrogate starts here: byte [ED], then a byte of [A0] or more. *)
Definition surrogate_at (c1 c2 : ascii) : bool :=
  Nat.eqb (code c1) 237 && Nat.leb 160 (code c2).

(** The surrogates U+DC80..U+DCFF have [B2] or [B3] as their second byte;
    they are the ones the [surrogateescape] handler of [os.fsencode] turns
    into the bytes [80..FF]. *)
Definition escaped (c2 : ascii) : bool :=
  Nat.eqb (code c2) 178 || Nat.eqb (code c2) 179.

(** The text holds a surrogate: [content.encode("utf-8")] raises. *)
Fixpoint has_surrogate (s : string) : bool :=
  match s with
  | String c1 (String c2 _ as rest) =>
      surrogate_at c1 c2 || has_surrogate rest
  | _ => false
  end.

(** The text holds a surrogate outside U+DC80..U+DCFF: [os.fsencode] raises. *)
Fixpoint unencodable (s : string) : bool :=
  match s with
  | String c1 (String c2 _ as rest) =>
      (surrogate_at c1 c2 && negb (escaped c2)) || unencodable rest
  | _ => false
  end.

(** [os.fsencode(s)] where it does not raise: UTF-8, with each surrogate of
    U+DC80..U+DCFF replaced by the one byte it stands for. *)
Fixpoint fs_bytes (s : string) : string :=
  match s with
  | EmptyString => EmptyString
  | String c1 tail =>
      match tail with
      | String c2 (String c3 rest) =>
          if surrogate_at c1 c2 && escaped c2
          then String (if Nat.eqb (code c2) 178 then c3
                       else ascii_of_nat (code c3 + 64))
                      (fs_bytes rest)
          else String c1 (fs_bytes tail)
      | _ => String c1 (fs_bytes tail)
      end
  end.

(** An embedded null byte. *)
Fixpoint has_nul (s : string) : bool :=
  match s with
  | EmptyString => false
  | String c rest => Nat.eqb (code c) 0 || has_nul rest
  end.

(** What Python raises for a [str] before it reaches the kernel: the
    encoding comes first, then the test for a null byte. *)
Definition py_path_error (s : string) : option exn :=
  if unencodable s then Some UnicodeEncodeError
  else if has_nul s then Some ValueError
  else None.

(** *** Paths *)

Definition node_at (t : gmap (list string) node) (p : list string)
  : option node :=
  match p with
  | [] => Some Dir
  | _ => t !! p
  end.

Definition set_node (p : list string) (n : node) (fs : FS) : FS :=
  {| cwd := cwd fs; tree := <[p := n]> (tree fs) |}.

(** [s.startswith("/")] and [s.endswith("/")] *)
Definition starts_with_sep (s : string) : bool :=
  match s with
  | String c _ => Ascii.eqb c "/"
  | EmptyString => false
  end.

Fixpoint ends_with_sep (s : string) : bool :=
  match s with
  | EmptyString => false
  | String c EmptyString => Ascii.eqb c "/"
  | String _ rest => ends_with_sep rest
  end.

(** [posixpath.join(a, b)]:
    [if b.startswith(sep): path = b
     elif not path or path.endswith(sep): path += b
     else: path += sep + b] *)
Definition os_path_join (a b : string) : string :=
  if starts_with_sep b then b
  else if String.eqb a "" || ends_with_sep a then a +:+ b
  else a +:+ "/" +:+ b.

(** [s.split("/")]: the names between separators, empty ones included. *)
Fixpoint split_sep (s : string) : list string :=
  match s with
  | EmptyString => [""]
  | String c rest =>
      if Ascii.eqb c "/" then "" :: split_sep rest
      else match split_sep rest with
           | x :: xs => String c x :: xs
           | [] => [String c ""]
           end
  end.

(** A name between two separators that is not empty, and a run of names
    that are (doubled or trailing separators). *)
Definition named (c : string) : bool := negb (String.eqb c "").

Definition all_empty (comps : list string) : bool :=
  forallb (λ c, String.eqb c "") comps.

(** The bytes of a path, counted over its names: one separator between any
    two. *)
Fixpoint fs_length (comps : list string) : nat :=
  match comps with
  | [] => 0
  | c :: rest =>
      String.length (fs_bytes c) +
      match rest with
      | [] => 0
      | _ => S (fs_length rest)
      end
  end.

(** Components that name no new entry: an empty name, [.] and [..]. *)
Definition is_special (c : string) : bool :=
  String.eqb c "" || String.eqb c "." || String.eqb c "..".

(** One step of path resolution from directory [cur]. *)
Definition descend (cur : list string) (c : string) : list string :=
  if String.eqb c "" || String.eqb c "." then cur
  else if String.eqb c ".." then removelast cur
  else cur ++ [c].

(** Where resolution starts: the root for an absolute path, the working
    directory otherwise. *)
Definition start (fs : FS) (path : string) : list string :=
  if starts_with_sep path then [] else cwd fs.

(** What a system call receives for the [str] it is given, or what is
    raised at once: [UnicodeEncodeError] and [ValueError] by Python (a
    separator never lies inside a code point, so the names are encoded one by
    one), [ENOENT] for the empty path and [ENAMETOOLONG] for one of
    [PATH_MAX] bytes or more by the kernel.  Otherwise the names to
    resolve. *)
Definition kernel_path (path : string) : exn + list string :=
  let comps := split_sep path in
  if existsb unencodable comps then inl UnicodeEncodeError
  else if existsb has_nul comps then inl ValueError
  else if String.eqb path "" then inl FileNotFoundError
  else if Nat.leb PATH_MAX (fs_length comps) then inl OSError
  else inr (fs_bytes <$> List.filter named comps).

(** Resolution of names all of which must be directories: each is looked up
    in a directory that is there ([ENOENT], [ENOTDIR]) under a name of at
    most [NAME_MAX] bytes ([ENAMETOOLONG]). *)
Fixpoint walk (t : gmap (list string) node) (cur : list string)
    (comps : list string) : exn + list string :=
  match node_at t cur with
  | None => inl FileNotFoundError
  | Some (File _) => inl NotADirectoryError
  | Some Dir =>
      match comps with
      | [] => inr cur
      | c :: rest =>
          if Nat.ltb NAME_MAX (String.length c) then inl OSError
          else walk t (descend cur c) rest
      end
  end.

(** [os.path.isdir(path)]: [False] on every error. *)
Definition isdir (fs : FS) (path : string) : bool :=
  match kernel_path path with
  | inl _ => false
  | inr comps =>
      match walk (tree fs) (start fs path) comps with
      | inr _ => true
      | inl _ => false
      end
  end.

(** The walk of [os.makedirs(path, exist_ok=True)].  The function calls
    [mkdir] on each prefix of the path that does not exist yet, shortest
    first, and on the whole path last; [used] counts the bytes before the
    name at hand and [total] those of the whole path.  Each [mkdir] gets its
    prefix checked by Python and by the kernel ([PATH_MAX]) before the names
    are looked up.  A missing directory is created, an existing one entered;
    a regular file is an error: [EEXIST] under the last name, [ENOTDIR] as
    soon as a further name is looked up in it. *)
Fixpoint mk_walk (total used : nat) (cur : list string) (comps : list string)
    : OS unit :=
  match comps with
  | [] => if Nat.leb PATH_MAX total then raise OSError else ok tt
  | c :: rest =>
      if String.eqb c "" then mk_walk total (S used) cur rest
      else
        match py_path_error c with
        | Some e => raise e
        | None =>
            let name := fs_bytes c in
            let stop := used + String.length name in
            if Nat.leb PATH_MAX (if all_empty rest then total else stop)
            then raise OSError
            else λ fs,
              match node_at (tree fs) cur with
              | None => raise FileNotFoundError fs
              | Some (File _) => raise NotADirectoryError fs
              | Some Dir =>
                  if Nat.ltb NAME_MAX (String.length name)
                  then raise OSError fs
                  else
                    let next := descend cur name in
                    match node_at (tree fs) next with
                    | Some Dir => mk_walk total (S stop) next rest fs
                    | Some (File _) =>
                        if all_empty rest then raise FileExistsError fs
                        else mk_walk total (S stop) next rest fs
                    | None =>
                        if is_special name then raise FileNotFoundError fs
                        else mk_walk total (S stop) next rest
                               (set_node next Dir fs)
                    end
              end
        end
  end.

(** [os.makedirs(path, exist_ok=True)] *)
Definition os_makedirs (path : string) : OS unit :=
  λ fs,
    if String.eqb path "" then raise FileNotFoundError fs
    else
      let comps := split_sep path in
      mk_walk (fs_length comps) 0 (start fs path) comps fs.

(** [open(path, "w", encoding="utf-8")]: the names before the last must
    resolve to a directory; the last must name an entry ([EISDIR] for [.],
    [..] and for a trailing separator, which the kernel refuses when asked to
    create) that is no directory.  The file is created or truncated.  The
    handle is the resolved path of the file. *)
Definition py_open_w (path : string) : OS (list string) :=
  λ fs,
    match kernel_path path with
    | inl e => raise e fs
    | inr comps =>
        match walk (tree fs) (start fs path) (removelast comps) with
        | inl e => raise e fs
        | inr parent =>
            let c := List.last comps "" in
            if is_special c || ends_with_sep path
            then raise IsADirectoryError fs
            else if Nat.ltb NAME_MAX (String.length c) then raise OSError fs
            else match node_at (tree fs) (parent ++ [c]) with
                 | Some Dir => raise IsADirectoryError fs
                 | _ => ok (parent ++ [c])
                          (set_node (parent ++ [c]) (File "") fs)
                 end
        end
    end.

(** [f.write(content)]: the text is encoded as UTF-8, which raises on a
    surrogate with nothing written; what is written reaches the file when the
    [with] block closes it. *)
Definition py_write (f : list string) (content : string) : OS unit :=
  λ fs,
    if has_surrogate content then raise UnicodeEncodeError fs
    else
      let old := match tree fs !! f with
                 | Some (File s) => s
                 | _ => ""
                 end in
      ok tt (set_node f (File (old +:+ content)) fs).

(** The text the regular file at [path] holds (its bytes, decoded as
    UTF-8), if [path] names one. *)
Definition read_file (fs : FS) (path : string) : option string :=
  match kernel_path path with
  | inl _ => None
  | inr comps =>
      match walk (tree fs) (start fs path) (removelast comps) with
      | inl _ => None
      | inr parent =>
          let c := List.last comps "" in
          if is_special c || ends_with_sep path then None
          else match node_at (tree fs) (parent ++ [c]) with
               | Some (File s) => Some s
               | _ => None
               end
      end
  end.

(** Every directory of [t] is a directory of [t']. *)
Definition dirs_kept (t t' : gmap (list string) node) : Prop :=
  ∀ p, node_at t p = Some Dir → node_at t' p = Some Dir.

End Posix.

Import Posix.

(** ** The tools of Agent.py (lines 31-62)

    A list is held by value: no two keys can share one list object, since
    [reset_case] and [append_state] build a new list for each key they
    initialise and [append_state] otherwise writes the grown list back
    under the key it was read from. *)

Module Tools.

(** [tool_context.state[field] = value; return {"status": "success"}] *)
Definition set_state (tool_context : ToolContext) (field : string)
    (value : value) : ToolContext * pydict :=
  (with_state tool_context (<[field := value]> (state tool_context)),
   [("status", "success")]).

(** [existing = tool_context.state.get(field, [])], replaced by [[]] when it
    is not a list; then [existing.append(value)] and the write back. *)
Definition append_state (tool_context : ToolContext) (field : string)
    (value : value) : ToolContext * pydict :=
  let existing := default (VList []) (state tool_context !! field) in
  let existing :=
    match existing with
    | VList items => items
    | _ => []
    end in
  let existing := existing ++ [value] in
  (with_state tool_context (<[field := VList existing]> (state tool_context)),
   [("status", "success")]).

(** Six assignments in the order of the source, then [{"status": "reset"}]. *)
Definition reset_case (tool_context : ToolContext) : ToolContext * pydict :=
  let st := state tool_context in
  let st := <["topic" := VStr ""]> st in
  let st := <["pos_data" := VList []]> st in
  let st := <["neg_data" := VList []]> st in
  let st := <["judge_feedback" := VStr ""]> st in
  let st := <["pos_round" := VInt 0]> st in
  let st := <["neg_round" := VInt 0]> st in
  (with_state tool_context st, [("status", "reset")]).

(** [os.makedirs(directory, exist_ok=True)], the join, the write inside the
    [with] block, and the returned dictionary.  The context is not used. *)
Definition write_file (tool_context : ToolContext)
    (directory filename content : string) : OS pydict :=
  os_makedirs directory ;;
  let path := os_path_join directory filename in
  f ← py_open_w path ;
  py_write f content ;;
  mret [("status", "success"); ("path", path)].

End Tools.

Import Tools.

(** Reading a field: [tool_context.state.get(field)]. *)
Definition read (tool_context : ToolContext) (field : string) : option value :=
  state tool_context !! field.

(** [len] of a field that holds a list. *)
Definition list_len (tool_context : ToolContext) (field : string) : option nat :=
  match read tool_context field with
  | Some (VList items) => Some (length items)
  | _ => None
  end.

(** ** Tool calls

    What a model turn produces: calls of tools by name with arguments. *)

Module Tool.
Inductive t :=
| set_state
| append_state
| reset_case
| write_file
| wiki_tool
| exit_loop.

#[global] Instance eq_dec : EqDecision t.
Proof. solve_decision. Defined.
End Tool.

Inductive tool_call :=
| CallSetState (field : string) (value : value)
| CallAppendState (field : string) (value : value)
| CallResetCase
| CallWriteFile (directory filename content : string)
| CallWiki (query : string)
| CallExitLoop.

Definition tool_of (c : tool_call) : Tool.t :=
  match c with
  | CallSetState _ _ => Tool.set_state
  | CallAppendState _ _ => Tool.append_state
  | CallResetCase => Tool.reset_case
  | CallWriteFile _ _ _ => Tool.write_file
  | CallWiki _ => Tool.wiki_tool
  | CallExitLoop => Tool.exit_loop
  end.

(** [Agent(name=..., model=SHARED_MODEL, instruction=..., tools=[...])]: the
    instruction is read by the model only; the runtime uses the name and the
    tools. *)
Record Agent := mkAgent {
  name : string;
  tools : list Tool.t
}.

(** A model may call only the tools its agent declares. *)
Definition declared (a : Agent) (c : tool_call) : bool :=
  bool_decide (tool_of c ∈ tools a).

(** The effect of one call on the session dictionary.  The Wikipedia lookup
    and [exit_loop] do not touch it, and [write_file] ignores its context. *)
Definition apply_call (c : tool_call) (tool_context : ToolContext)
  : ToolContext :=
  match c with
  | CallSetState field value => (set_state tool_context field value).1
  | CallAppendState field value => (append_state tool_context field value).1
  | CallResetCase => (reset_case tool_context).1
  | CallWriteFile _ _ _ | CallWiki _ | CallExitLoop => tool_context
  end.

(** ** The agent runtime *)

Module Adk.

(** What has happened so far: agents entered and left, tools invoked. *)
Inductive event :=
| Begin (agent : string)
| Invoke (agent : string) (c : tool_call)
| Finish (agent : string).

(** The session dictionary, the disk, and the events so far. *)
Record World := mkWorld {
  session : gmap string value;
  disk : FS;
  trace : list event
}.

(** How an agent or a call ends: it completes, it completes having asked the
    enclosing loop to stop, or it raises. *)
Inductive signal :=
| Normal
| Escalated
| Raised (e : exn).

Definition Runner : Type := World → World * signal.

Definition log (e : event) (w : World) : World :=
  {| session := session w; disk := disk w; trace := trace w ++ [e] |}.

(** Modelled from the spec: the [exit_loop] tool of the agent library, by
    which the Adjudicator "signals loop completion" (section 4.4); it sets
    the escalate flag of the call's context. *)
Definition exit_loop (tool_context : ToolContext) : ToolContext :=
  {| state := state tool_context; escalate := true |}.

(** After a call the runtime keeps the state the tool left and reads the
    flag of the call's context. *)
Definition commit (w : World) (tool_context : ToolContext) : World * signal :=
  ({| session := state tool_context; disk := disk w; trace := trace w |},
   if escalate tool_context then Escalated else Normal).

(** One tool call: the tool runs on a fresh context over the current session
    state; an exception of [write_file] is not caught. *)
Definition call_tool (c : tool_call) (w : World) : World * signal :=
  let tool_context := {| state := session w; escalate := false |} in
  match c with
  | CallWriteFile directory filename content =>
      match write_file tool_context directory filename content (disk w) with
      | (fs, inr _) =>
          ({| session := session w; disk := fs; trace := trace w |}, Normal)
      | (fs, inl e) =>
          ({| session := session w; disk := fs; trace := trace w |}, Raised e)
      end
  | CallExitLoop => commit w (exit_loop tool_context)
  | _ => commit w (apply_call c tool_context)
  end.

(** Calls run in order, each logged with its author; the first call that
    escalates or raises ends the run of the list. *)
Fixpoint run_calls (calls : list (string * tool_call)) (w : World)
  : World * signal :=
  match calls with
  | [] => (w, Normal)
  | (who, c) :: rest =>
      match call_tool c (log (Invoke who c) w) with
      | (w1, Normal) => run_calls rest w1
      | (w1, s) => (w1, s)
      end
  end.

(** Calls of several authors merged into one order: each pick takes the next
    call of the author picked, and what is left when the picks run out
    follows author by author. *)
Fixpoint interleave {A} (picks : list nat) (queues : list (list A)) : list A :=
  match picks with
  | [] => concat queues
  | i :: picks =>
      match queues !! i with
      | Some (x :: q) => x :: interleave picks (<[i := q]> queues)
      | _ => interleave picks queues
      end
  end.

(** The orders in which the calls of two authors can come: each author's
    calls keep their own order. *)
Inductive merges {A} : list A → list A → list A → Prop :=
| merges_nil : merges [] [] []
| merges_left x l1 l2 l : merges l1 l2 l → merges (x :: l1) l2 (x :: l)
| merges_right x l1 l2 l : merges l1 l2 l → merges l1 (x :: l2) (x :: l).

Section Runtime.

(** The language model: the calls an agent's turn produces, given the world
    at the start of the turn (state, disk and history).  The scheduler: the
    order in which parallel agents get to make their calls. *)
Context (llm : string → World → list tool_call) (sched : World → list nat).

Definition turn (a : Agent) (w : World) : list (string * tool_call) :=
  (λ c, (name a, c)) <$> filter (λ c, declared a c) (llm (name a) w).

(** Modelled from the spec: a Single-Turn Worker (section 2), which "produces
    zero or more Store mutations and/or external-tool calls, then stops". *)
Definition LlmAgent (a : Agent) : Runner :=
  λ w,
    let '(w1, s) := run_calls (turn a w) (log (Begin (name a)) w) in
    (log (Finish (name a)) w1, s).

(** Modelled from the spec: Parallel Fan-Out (sections 2 and 5), which runs
    its workers "to completion independently in a single round", in parallel
    or interleaved; the next step starts after all of them. *)
Definition ParallelAgent (name_ : string) (sub_agents : list Agent) : Runner :=
  λ w,
    let calls := interleave (sched w) ((λ a, turn a w) <$> sub_agents) in
    let w0 := foldl (λ w a, log (Begin (name a)) w) (log (Begin name_) w)
                    sub_agents in
    let '(w1, s) := run_calls calls w0 in
    (log (Finish name_) (foldl (λ w a, log (Finish (name a)) w) w1 sub_agents),
     s).

(** Modelled from the spec: one round of the Bounded Loop (section 4.5),
    its sub-agents in order, left at the first one that signals completion
    or fails. *)
Fixpoint run_round (sub_agents : list Runner) (w : World) : World * signal :=
  match sub_agents with
  | [] => (w, Normal)
  | a :: rest =>
      match a w with
      | (w1, Normal) => run_round rest w1
      | (w1, s) => (w1, s)
      end
  end.

(** Modelled from the spec: the rounds of the Bounded Loop (section 4.5),
    ended by the round cap or by the first round that does not complete
    normally. *)
Fixpoint run_loop (sub_agents : list Runner) (rounds_left : nat) (w : World)
  : World * signal :=
  match rounds_left with
  | 0 => (w, Normal)
  | S rounds_left =>
      match run_round sub_agents w with
      | (w1, Normal) => run_loop sub_agents rounds_left w1
      | (w1, s) => (w1, s)
      end
  end.

(** Modelled from the spec: the Bounded Loop (sections 2 and 4.5), which
    repeats its sub-agents in order for at most [max_iterations] rounds and
    terminates immediately when one of them signals completion. *)
Definition LoopAgent (name_ : string) (sub_agents : list Runner)
    (max_iterations : nat) : Runner :=
  λ w,
    let '(w1, s) := run_loop sub_agents max_iterations (log (Begin name_) w) in
    (log (Finish name_) w1, s).

(** Modelled from the spec: the steps of the Sequential Pipeline (section
    4.7) in order; the completion of a step starts the next, a failure ends
    the run. *)
Fixpoint run_sequence (sub_agents : list Runner) (w : World)
  : World * signal :=
  match sub_agents with
  | [] => (w, Normal)
  | a :: rest =>
      match a w with
      | (w1, Raised e) => (w1, Raised e)
      | (w1, _) => run_sequence rest w1
      end
  end.

(** Modelled from the spec: the Sequential Pipeline (sections 2 and 4.7),
    which runs its steps in strict order, once; a step that fails ends the
    run without rollback (section 7). *)
Definition SequentialAgent (name_ : string) (sub_agents : list Runner)
  : Runner :=
  λ w,
    let '(w1, s) := run_sequence sub_agents (log (Begin name_) w) in
    (log (Finish name_) w1, s).

End Runtime.

End Adk.

Import Adk.

(** ** The agents of Agent.py (lines 70-247) *)

Section Court.

Context (llm : string → World → list tool_call) (sched : World → list nat).

Definition clerk : Agent :=
  {| name := "clerk"; tools := [Tool.set_state] |}.

Definition admirer : Agent :=
  {| name := "admirer"; tools := [Tool.wiki_tool; Tool.append_state] |}.

Definition critic : Agent :=
  {| name := "critic"; tools := [Tool.wiki_tool; Tool.append_state] |}.

Definition investigation_team : Runner :=
  ParallelAgent llm sched "investigation_team" [admirer; critic].

Definition judge : Agent :=
  {| name := "judge"; tools := [Tool.set_state; Tool.exit_loop] |}.

Definition court_trial : Runner :=
  LoopAgent "court_trial" [investigation_team; LlmAgent llm judge] 6.

Definition verdict_scribe : Agent :=
  {| name := "verdict_scribe"; tools := [Tool.write_file] |}.

Definition resetter : Agent :=
  {| name := "resetter"; tools := [Tool.reset_case] |}.

Definition root_agent : Runner :=
  SequentialAgent "historical_court_system"
    [LlmAgent llm resetter; LlmAgent llm clerk; court_trial;
     LlmAgent llm verdict_scribe].

End Court.

(** ** The judge's decision rules (instruction of [judge], lines 170-183) *)

(** The number of points on a side: the length of the list under the key,
    zero when the key holds no list. *)
Definition count (st : gmap string value) (field : string) : nat :=
  match st !! field with
  | Some (VList items) => length items
  | _ => 0
  end.

(** The two feedback templates, with the count filled in. *)
Definition more_controversies (n : nat) : string :=
  "Found only " +:+ pretty n +:+
  " points. Please find MORE specific controversies or failed projects.".

Definition more_achievements (n : nat) : string :=
  "Found only " +:+ pretty n +:+
  " points. Please find MORE diverse achievements in science, art, or engineering.".

(** A rule: when it applies to the counts of positive and negative points,
    and the calls it asks for. *)
Record rule := mkRule {
  applies : nat → nat → bool;
  action : nat → nat → list tool_call
}.

Definition decision_rules : list rule :=
  [ {| applies pos neg := (neg <? 4)%nat;
       action pos neg :=
         [CallSetState "judge_feedback" (VStr (more_controversies neg))] |};
    {| applies pos neg := (pos <? 4)%nat;
       action pos neg :=
         [CallSetState "judge_feedback" (VStr (more_achievements pos))] |};
    {| applies pos neg := (4 <=? pos)%nat && (4 <=? neg)%nat;
       action pos neg := [CallExitLoop] |} ].

(** Modelled from the spec: the Adjudicator evaluates its rules "in fixed
    priority order each round" and "only one branch fires per round"
    (section 4.4); the rules themselves are those of the instruction.  The
    result is the number of the rule that fired and its calls. *)
Definition decide_counts (pos neg : nat) : option (nat * list tool_call) :=
  '(i, r) ← list_find (λ r, Is_true (applies r pos neg)) decision_rules;
  Some (S i, action r pos neg).

Definition judge_decision (st : gmap string value)
  : option (nat * list tool_call) :=
  decide_counts (count st "pos_data") (count st "neg_data").

Definition judge_calls (st : gmap string value) : list tool_call :=
  match judge_decision st with
  | Some (_, calls) => calls
  | None => []
  end.

(** ** Observations on a run *)

(** The events a run added to the trace. *)
Definition events_since (w w' : World) : list event :=
  drop (length (trace w)) (trace w').

(** The control skeleton of a trace: agents entered and left, without the
    tool calls made in between. *)
Definition is_invoke (e : event) : bool :=
  match e with
  | Invoke _ _ => true
  | _ => false
  end.

Definition skeleton (t : list event) : list event :=
  filter (λ e, is_invoke e = false) t.

(** One round of the trial as the skeleton shows it: the fan-out with its two
    workers, then the judge. *)
Definition round_skeleton : list event :=
  [Begin "investigation_team"; Begin "admirer"; Begin "critic";
   Finish "admirer"; Finish "critic"; Finish "investigation_team";
   Begin "judge"; Finish "judge"].

(** How a list of calls can have ended with a given signal: normally only
    without [exit_loop], escalated only by an [exit_loop], raising only from
    [write_file]. *)
Definition ended (calls : list (string * tool_call)) (s : signal) : Prop :=
  match s with
  | Normal => ∀ who, (who, CallExitLoop) ∉ calls
  | Escalated => ∃ who, (who, CallExitLoop) ∈ calls
  | Raised _ => ∃ who c, (who, c) ∈ calls ∧ tool_of c = Tool.write_file
  end.

(** ** Calls made inside the loop *)

(** The judge's instruction uses [set_state] with [field="judge_feedback"]
    only (lines 173 and 178). *)
Definition judge_field (c : tool_call) : bool :=
  match c with
  | CallSetState field _ => String.eqb field "judge_feedback"
  | _ => true
  end.

(** A call an agent of the loop can make: a call of a tool it declares
    (lines 115, 146 and 187).  The field the judge gives to [set_state] is
    not restricted by the code. *)
Definition loop_call (tagged : string * tool_call) : bool :=
  let '(who, c) := tagged in
  (String.eqb who (name admirer) && declared admirer c) ||
  (String.eqb who (name critic) && declared critic c) ||
  (String.eqb who (name judge) && declared judge c).

(** The context a call starts from. *)
Definition context_of (st : gmap string value) : ToolContext :=
  {| state := st; escalate := false |}.

(** The number of [append_state] calls on a field. *)
Definition appends_on (field : string) (c : tool_call) : bool :=
  match c with
  | CallAppendState field' _ => String.eqb field' field
  | _ => false
  end.

Definition appends_to (field : string) (calls : list (string * tool_call))
  : nat :=
  length (filter (λ tagged, appends_on field tagged.2) calls).

(** A turn that appends exactly two items, both to [field]; lookups may
    come in between. *)
Definition is_append (c : tool_call) : bool :=
  match c with
  | CallAppendState _ _ => true
  | _ => false
  end.

Definition appends_two (field : string) (calls : list tool_call) : Prop :=
  ∃ a b, filter (λ c, is_append c) calls =
         [CallAppendState field a; CallAppendState field b].

(** The session state after a list of calls. *)
Definition apply_calls (calls : list (string * tool_call))
    (tool_context : ToolContext) : ToolContext :=
  foldl (λ tc tagged, apply_call tagged.2 tc) tool_context calls.

(** The state after the first [k] rounds of a list of rounds. *)
Definition after_rounds (rounds : list (list (string * tool_call))) (k : nat)
    (tool_context : ToolContext) : ToolContext :=
  apply_calls (concat (take k rounds)) tool_context.

(** ** Scenarios

    Concrete models, schedules and disks on which the definitions above are
    run. *)

Module Scenario.

Definition home : FS :=
  {| cwd := ["srv"; "court"];
     tree := <[ ["srv"; "court"] := Dir ]> (<[ ["srv"] := Dir ]> ∅) |}.

Definition empty_context : ToolContext :=
  {| state := ∅; escalate := false |}.

(** The same disk after an earlier run left a report behind. *)
Definition reported : FS :=
  (write_file empty_context "court_reports" "Leonardo da Vinci_verdict.txt"
     "an earlier report" home).1.

Definition fresh : World :=
  {| session := ∅; disk := home; trace := [] |}.

(** A model that follows every instruction: two new points per worker and
    round, the judge's rules, one report. *)
Definition diligent (who : string) (w : World) : list tool_call :=
  let st := session w in
  if String.eqb who "resetter" then [CallResetCase]
  else if String.eqb who "clerk" then
    [CallSetState "topic" (VStr "Leonardo da Vinci")]
  else if String.eqb who "admirer" then
    [CallWiki "Leonardo da Vinci achievements";
     CallAppendState "pos_data"
       (VStr ("achievement " +:+ pretty (count st "pos_data")));
     CallAppendState "pos_data"
       (VStr ("achievement " +:+ pretty (S (count st "pos_data"))))]
  else if String.eqb who "critic" then
    [CallWiki "Leonardo da Vinci controversy";
     CallAppendState "neg_data"
       (VStr ("criticism " +:+ pretty (count st "neg_data")));
     CallAppendState "neg_data"
       (VStr ("criticism " +:+ pretty (S (count st "neg_data"))))]
  else if String.eqb who "judge" then judge_calls st
  else if String.eqb who "verdict_scribe" then
    [CallWriteFile "court_reports" "Leonardo da Vinci_verdict.txt" "report"]
  else [].


(** The world right after [reset_case]. *)
Definition cleared : World :=
  {| session := state (reset_case empty_context).1;
     disk := home;
     trace := [] |}.



(** The critic moves first, then the workers alternate. *)
Definition alternate (w : World) : list nat := [1; 0; 1; 0; 1; 0].



End Scenario.


(** ** Sequences of writes and plain names *)

(** The six keys [reset_case] assigns. *)
Definition reset_fields : list string :=
  ["topic"; "pos_data"; "neg_data"; "judge_feedback"; "pos_round";
   "neg_round"].

(** [append_state] called once for each value, in order, on one field. *)
Definition append_all (tool_context : ToolContext) (field : string)
    (values : list value) : ToolContext :=
  foldl (λ tc v, (append_state tc field v).1) tool_context values.

(** [set_state] called once for each pair of field and value, in order. *)
Definition set_all (tool_context : ToolContext)
    (writes : list (string * value)) : ToolContext :=
  foldl (λ tc p, (set_state tc p.1 p.2).1) tool_context writes.

(** A call that appends to [field], or a lookup, which writes nothing. *)
Definition appends_only (field : string) (c : tool_call) : bool :=
  match c with
  | CallAppendState field' _ => String.eqb field' field
  | CallWiki _ => true
  | _ => false
  end.

(** A name with a separator in it. *)
Fixpoint has_sep (s : string) : bool :=
  match s with
  | EmptyString => false
  | String c rest => Ascii.eqb c "/" || has_sep rest
  end.

(** A plain name: not empty, not [.] or [..], no separator, no null byte
    and no surrogate, at most [NAME_MAX] bytes. *)
Definition is_plain (s : string) : bool :=
  negb (has_sep s) && negb (is_special s) &&
  negb (has_nul s) && negb (has_surrogate s) &&
  Nat.leb (String.length s) NAME_MAX.

(** Further inputs on which the definitions are run. *)
Module Cases.

(** The surrogate U+DC80, which stands for the byte [80] in a file name and
    which UTF-8 cannot encode; U+D800, which neither can; a report with the
    first in it. *)
Definition lone_surrogate : string :=
  String "237" (String "178" (String "128" EmptyString)).

Definition high_surrogate : string :=
  String "237" (String "160" (String "128" EmptyString)).

Definition broken_report : string := "bad " +:+ lone_surrogate.

Definition name_with_nul : string := String "a" (String "000" "b").

Fixpoint long_name (n : nat) : string :=
  match n with
  | 0 => EmptyString
  | S n => String "a" (long_name n)
  end.

Definition admirer_turn : list (string * tool_call) :=
  [("admirer", CallWiki "Leonardo da Vinci achievements");
   ("admirer", CallAppendState "pos_data" (VStr "achievement 0"));
   ("admirer", CallAppendState "pos_data" (VStr "achievement 1"))].

Definition critic_turn : list (string * tool_call) :=
  [("critic", CallAppendState "neg_data" (VStr "criticism 0"));
   ("critic", CallWiki "Leonardo da Vinci failure");
   ("critic", CallAppendState "neg_data" (VStr "criticism 1"))].

(** One order in which the two turns can come. *)
Definition mixed_turns : list (string * tool_call) :=
  [("critic", CallAppendState "neg_data" (VStr "criticism 0"));
   ("admirer", CallWiki "Leonardo da Vinci achievements");
   ("admirer", CallAppendState "pos_data" (VStr "achievement 0"));
   ("critic", CallWiki "Leonardo da Vinci failure");
   ("admirer", CallAppendState "pos_data" (VStr "achievement 1"));
   ("critic", CallAppendState "neg_data" (VStr "criticism 1"))].

(** A store with a key that [reset_case] does not know. *)
Definition with_notes : ToolContext :=
  (append_state (set_state Scenario.empty_context "topic" (VStr "Nero")).1
     "notes" (VStr "burned Rome?")).1.

End Cases.

(** * Properties of the state tools *)

Section StateTools.

Implicit Types (tc : ToolContext) (field : string) (v : value).

Lemma read_set_state tc field v field' :
  read (set_state tc field v).1 field' =
  if decide (field = field') then Some v else read tc field'.
Proof. unfold read, set_state; simpl. apply lookup_insert. Qed.

Lemma read_append_state_eq tc field v :
  read (append_state tc field v).1 field =
  Some (VList (match read tc field with
               | Some (VList items) => items
               | _ => []
               end ++ [v])).
Proof.
  unfold read, append_state; simpl. rewrite lookup_insert_eq.
  destruct (state tc !! field) as [[s|z|items]|]; reflexivity.
Qed.

Lemma read_append_state_ne tc field v field' :
  field ≠ field' →
  read (append_state tc field v).1 field' = read tc field'.
Proof.
  intros Hne. unfold read, append_state; simpl. by rewrite lookup_insert_ne.
Qed.

(** C1.  Appending to a field and reading it back: the field holds a list
    whose last element is the appended value, one longer than the list that
    was there, or of length 1 when the field held no list; the call returns
    [{"status": "success"}].  The value may be any stored value, a string in
    particular. *)
Theorem append_state_read_back tc field v :
  ∃ items,
    read (append_state tc field v).1 field = Some (VList items) ∧
    last items = Some v ∧
    length items = match list_len tc field with
                   | Some n => S n
                   | None => 1
                   end ∧
    (append_state tc field v).2 = [("status", "success")].
Proof.
  eexists. split; [apply read_append_state_eq|].
  split; [apply last_snoc|].
  split; [|reflexivity].
  unfold list_len. rewrite length_app. simpl.
  destruct (read tc field) as [[s|z|items]|]; simpl; lia.
Qed.

(** C2.  After [reset_case], whatever the store held, [topic] reads [""],
    [pos_data] and [neg_data] read [[]], [judge_feedback] reads [""],
    [pos_round] and [neg_round] read 0, and the call returns
    [{"status": "reset"}]. *)
Theorem reset_case_clears tc :
  read (reset_case tc).1 "topic" = Some (VStr "") ∧
  read (reset_case tc).1 "pos_data" = Some (VList []) ∧
  read (reset_case tc).1 "neg_data" = Some (VList []) ∧
  read (reset_case tc).1 "judge_feedback" = Some (VStr "") ∧
  read (reset_case tc).1 "pos_round" = Some (VInt 0) ∧
  read (reset_case tc).1 "neg_round" = Some (VInt 0) ∧
  (reset_case tc).2 = [("status", "reset")].
Proof.
  unfold read, reset_case; simpl.
  repeat split; by simplify_map_eq.
Qed.

(** C7.  When the field holds something that is not a list, [append_state]
    starts from an empty list: the field then holds the one-element list of
    the new value, nothing of the old value is kept, and the call returns
    [{"status": "success"}] like any other. *)
Theorem append_state_discards_non_list tc field old v :
  read tc field = Some old →
  is_list old = false →
  read (append_state tc field v).1 field = Some (VList [v]) ∧
  (append_state tc field v).2 = [("status", "success")].
Proof.
  intros Hold Hnl. split; [|reflexivity].
  rewrite read_append_state_eq, Hold.
  destruct old; [reflexivity..|discriminate].
Qed.

Lemma append_state_discards_non_list_witness :
  let tc := (set_state Scenario.empty_context "topic" (VStr "Nero")).1 in
  read (append_state tc "topic" (VStr "fire")).1 "topic"
    = Some (VList [VStr "fire"]) ∧
  (append_state tc "topic" (VStr "fire")).2 = [("status", "success")].
Proof.
  intros tc.
  apply (append_state_discards_non_list tc "topic" (VStr "Nero") (VStr "fire")).
  - reflexivity.
  - reflexivity.
Defined.

(** C10.  [set_state] writes the named field and no other: every field reads
    as before except the named one, which reads the new value; the call
    returns [{"status": "success"}] for every field and value, and leaves
    the escalate flag alone. *)
Theorem set_state_frame tc field v :
  (set_state tc field v).2 = [("status", "success")] ∧
  (∀ field', read (set_state tc field v).1 field' =
             if decide (field' = field) then Some v else read tc field') ∧
  delete field (state (set_state tc field v).1) = delete field (state tc) ∧
  escalate (set_state tc field v).1 = escalate tc.
Proof.
  split; [reflexivity|]. split; [|split; [|reflexivity]].
  - intros field'. rewrite read_set_state.
    repeat case_decide; congruence.
  - unfold set_state; simpl. apply delete_insert_eq.
Qed.

End StateTools.

(** * Properties of the file tool *)

Section FileTool.

Implicit Types (fs : FS) (t : gmap (list string) node) (p cur : list string).

Lemma dirs_kept_refl t : dirs_kept t t.
Proof. intros p Hp. exact Hp. Qed.

Lemma dirs_kept_trans t1 t2 t3 :
  dirs_kept t1 t2 → dirs_kept t2 t3 → dirs_kept t1 t3.
Proof. intros H12 H23 p Hp. apply H23, H12, Hp. Qed.

Lemma dirs_kept_subseteq t t' : t ⊆ t' → dirs_kept t t'.
Proof.
  intros Hsub p Hp. destruct p as [|x p]; [done|]. simpl in *.
  by eapply lookup_weaken.
Qed.

Lemma node_at_set_eq fs p n :
  p ≠ [] → node_at (tree (set_node p n fs)) p = Some n.
Proof.
  intros Hp. destruct p as [|x p]; [done|]. simpl. apply lookup_insert_eq.
Qed.

Lemma node_at_set_dir fs p : node_at (tree (set_node p Dir fs)) p = Some Dir.
Proof. destruct p as [|x p]; [done|]. simpl. apply lookup_insert_eq. Qed.

(** Writing a node where no directory was keeps all directories. *)
Lemma dirs_kept_set fs p n :
  node_at (tree fs) p ≠ Some Dir ∨ n = Dir →
  dirs_kept (tree fs) (tree (set_node p n fs)).
Proof.
  intros Hp q Hq. destruct q as [|x q]; [done|]. simpl in *.
  rewrite lookup_insert. case_decide as Heq; [|exact Hq].
  subst p. destruct Hp as [Hp| ->]; [|done]. simpl in Hp. congruence.
Qed.

Lemma walk_unfold t cur comps :
  walk t cur comps =
  match node_at t cur with
  | None => inl FileNotFoundError
  | Some (File _) => inl NotADirectoryError
  | Some Dir =>
      match comps with
      | [] => inr cur
      | c :: rest =>
          if Nat.ltb NAME_MAX (String.length c) then inl OSError
          else walk t (descend cur c) rest
      end
  end.
Proof. by destruct comps. Qed.


Lemma walk_dirs_kept t t' cur comps p :
  dirs_kept t t' → walk t cur comps = inr p → walk t' cur comps = inr p.
Proof.
  intros Hkept. revert cur.
  induction comps as [|c rest IH]; intros cur; rewrite !(walk_unfold _ cur);
    destruct (node_at t cur) as [[|s]|] eqn:Hn; try done;
    rewrite (Hkept _ Hn); [done|].
  destruct (Nat.ltb _ _); [done|]. apply IH.
Qed.

(** [os.makedirs] adds directories and touches nothing that is there. *)
Lemma mk_walk_keeps total used cur comps fs fs' r :
  mk_walk total used cur comps fs = (fs', r) →
  cwd fs' = cwd fs ∧ tree fs ⊆ tree fs'.
Proof.
  revert used cur fs.
  induction comps as [|c rest IH]; intros used cur fs; cbn [mk_walk];
    unfold raise, ok.
  - destruct (Nat.leb _ _); by intros [= <- _].
  - destruct (String.eqb c ""); [apply IH|].
    destruct (py_path_error c); [by intros [= <- _]|].
    destruct (Nat.leb _ _); [by intros [= <- _]|].
    destruct (node_at (tree fs) cur) as [[|s]|]; [|by intros [= <- _]..].
    destruct (Nat.ltb _ _); [by intros [= <- _]|].
    destruct (node_at (tree fs) (descend cur (fs_bytes c))) as [[|s]|] eqn:Hn.
    + apply IH.
    + destruct (all_empty rest); [by intros [= <- _]|apply IH].
    + destruct (is_special _); [by intros [= <- _]|].
      intros Hrec. apply IH in Hrec as [Hcwd Hsub]. split; [done|].
      etrans; [|exact Hsub]. simpl. apply insert_subseteq.
      destruct (descend cur _); [discriminate|done].
Qed.

(** Inside a regular file the walk cannot go on. *)
Lemma mk_walk_in_file total used cur comps fs fs' s :
  node_at (tree fs) cur = Some (File s) →
  mk_walk total used cur comps fs = (fs', inr tt) →
  all_empty comps = true.
Proof.
  intros Hcur. revert used.
  induction comps as [|c rest IH]; intros used; cbn [mk_walk];
    unfold raise, ok; [done|].
  destruct (String.eqb c "") eqn:Hc.
  { intros Hrec%IH. unfold all_empty in *. simpl. by rewrite Hc. }
  destruct (py_path_error c); [done|].
  destruct (Nat.leb _ _); cbn beta; [done|]. by rewrite Hcur.
Qed.

Lemma py_path_error_None s :
  py_path_error s = None → unencodable s = false ∧ has_nul s = false.
Proof.
  unfold py_path_error. destruct (unencodable s); [done|].
  by destruct (has_nul s).
Qed.

(** A walk that created the directories resolves afterwards. *)
Lemma mk_walk_resolves total used cur comps fs fs' :
  mk_walk total used cur comps fs = (fs', inr tt) →
  existsb unencodable comps = false ∧ existsb has_nul comps = false ∧
  Nat.leb PATH_MAX total = false ∧
  (node_at (tree fs') cur = Some Dir ∨ List.filter named comps ≠ [] →
   ∃ p, walk (tree fs') cur (fs_bytes <$> List.filter named comps) = inr p).
Proof.
  revert used cur fs.
  induction comps as [|c rest IH]; intros used cur fs; cbn [mk_walk];
    unfold raise, ok.
  - destruct (Nat.leb _ _) eqn:Hlim; [done|]. intros [= <-].
    repeat split; try done. simpl. intros [Hcur|]; [|done].
    rewrite Hcur. by eexists.
  - unfold named at 1 2. cbn [List.filter existsb].
    destruct (String.eqb_spec c "") as [->|Hc]; [apply IH|]. cbn [negb].
    destruct (py_path_error c) eqn:Hpy; [done|].
    apply py_path_error_None in Hpy as [-> ->].
    destruct (Nat.leb PATH_MAX (if all_empty rest then _ else _));
      cbn beta; [done|].
    destruct (node_at (tree fs) cur) as [[|s]|] eqn:Hcur; [|done..].
    destruct (Nat.ltb _ _) eqn:Hname; [done|].
    assert (Hgo : ∀ fs0,
      tree fs ⊆ tree fs0 →
      node_at (tree fs0) (descend cur (fs_bytes c)) = Some Dir →
      mk_walk total (S (used + String.length (fs_bytes c)))
        (descend cur (fs_bytes c)) rest fs0 = (fs', inr tt) →
      existsb unencodable rest = false ∧ existsb has_nul rest = false ∧
      Nat.leb PATH_MAX total = false ∧
      (node_at (tree fs') cur = Some Dir ∨
       fs_bytes c :: List.filter named rest ≠ [] →
       ∃ p, walk (tree fs') cur
              (fs_bytes <$> c :: List.filter named rest) = inr p)).
    { intros fs0 Hsub0 Hnext Hrec.
      destruct (mk_walk_keeps _ _ _ _ _ _ _ Hrec) as [_ Hsub].
      destruct (IH _ _ _ Hrec) as (Hu & Hn & Hlim & Hwalk).
      repeat split; try done. intros _.
      destruct Hwalk as [p Hp].
      { left. by apply (dirs_kept_subseteq _ _ Hsub). }
      exists p. rewrite fmap_cons, walk_unfold.
      rewrite (dirs_kept_subseteq _ _ Hsub cur
                 (dirs_kept_subseteq _ _ Hsub0 cur Hcur)).
      by rewrite Hname. }
    destruct (node_at (tree fs) (descend cur (fs_bytes c))) as [[|s]|] eqn:Hn.
    + intros Hrec. simpl. eapply Hgo in Hrec as (? & ? & ? & Hw); [|done..].
      repeat split; try done. intros _. apply Hw. by right.
    + destruct (all_empty rest) eqn:Hrest; [done|]. intros Hrec.
      by rewrite (mk_walk_in_file _ _ _ _ _ _ _ Hn Hrec) in Hrest.
    + destruct (is_special _); [done|]. intros Hrec. simpl.
      eapply Hgo in Hrec as (? & ? & ? & Hw).
      * repeat split; try done. intros _. apply Hw. by right.
      * simpl. apply insert_subseteq.
        destruct (descend cur _); [discriminate|done].
      * apply node_at_set_dir.
Qed.

Lemma os_makedirs_keeps path fs fs' r :
  os_makedirs path fs = (fs', r) →
  cwd fs' = cwd fs ∧ tree fs ⊆ tree fs'.
Proof.
  unfold os_makedirs, raise. destruct (String.eqb path "").
  - by intros [= <- _].
  - apply mk_walk_keeps.
Qed.

(** A relative path begins with a name. *)
Lemma split_sep_relative path :
  path ≠ "" → starts_with_sep path = false →
  List.filter named (split_sep path) ≠ [].
Proof.
  destruct path as [|c rest]; [done|]. intros _. simpl. intros ->.
  by destruct (split_sep rest).
Qed.

(** [os.makedirs] returned: the directory is there. *)
Lemma os_makedirs_isdir path fs fs' :
  os_makedirs path fs = (fs', inr tt) → isdir fs' path = true.
Proof.
  intros Hmk. destruct (os_makedirs_keeps _ _ _ _ Hmk) as [Hcwd _].
  unfold os_makedirs in Hmk. unfold isdir, kernel_path.
  destruct (String.eqb_spec path "") as [|Hne]; [discriminate|].
  apply mk_walk_resolves in Hmk as (-> & -> & -> & Hwalk).
  unfold start in *. rewrite Hcwd.
  destruct Hwalk as [p ->]; [|done].
  destruct (starts_with_sep path) eqn:Hst; [by left|].
  right. by apply split_sep_relative.
Qed.

Lemma isdir_dirs_kept path fs fs' :
  cwd fs' = cwd fs → dirs_kept (tree fs) (tree fs') →
  isdir fs path = true → isdir fs' path = true.
Proof.
  intros Hcwd Hkept. unfold isdir, start. rewrite Hcwd.
  destruct (kernel_path path) as [e|comps]; [done|].
  destruct (walk (tree fs) _ _) as [e|p] eqn:Hw; [done|].
  by rewrite (walk_dirs_kept _ _ _ _ _ Hkept Hw).
Qed.

(** [open(path, "w")] returned: the handle names an empty regular file that
    [path] resolves to, and no directory was touched. *)
Lemma py_open_w_ok path fs fs' f :
  py_open_w path fs = (fs', inr f) →
  fs' = set_node f (File "") fs ∧
  f ≠ [] ∧
  node_at (tree fs) f ≠ Some Dir ∧
  (∀ fs2 s, cwd fs2 = cwd fs → dirs_kept (tree fs) (tree fs2) →
            node_at (tree fs2) f = Some (File s) →
            read_file fs2 path = Some s).
Proof.
  unfold py_open_w, read_file, raise, ok.
  destruct (kernel_path path) as [e|comps]; [intros [=]|].
  destruct (walk (tree fs) (start fs path) _) as [e|parent] eqn:Hw;
    [intros [=]|].
  destruct (is_special _ || ends_with_sep path); [intros [=]|].
  destruct (Nat.ltb _ _); [intros [=]|].
  destruct (node_at (tree fs) (parent ++ [_])) as [[|s0]|] eqn:Hn;
    [intros [=]| |]; intros [= <- <-].
  all: split; [done|]; split; [by destruct parent|]; split; [congruence|].
  all: intros fs2 s Hcwd Hkept Hf; unfold start in *; rewrite Hcwd.
  all: by rewrite (walk_dirs_kept _ _ _ _ _ Hkept Hw), Hf.
Qed.

(** [open] raised: nothing was touched. *)
Lemma py_open_w_raise path fs fs' e :
  py_open_w path fs = (fs', inl e) → fs' = fs.
Proof.
  unfold py_open_w, raise, ok.
  destruct (kernel_path path) as [e'|comps]; [by intros [= <- _]|].
  destruct (walk _ _ _) as [e'|parent]; [by intros [= <- _]|].
  destruct (is_special _ || ends_with_sep path); [by intros [= <- _]|].
  destruct (Nat.ltb _ _); [by intros [= <- _]|].
  by destruct (node_at _ _) as [[|s]|]; intros [= <- _].
Qed.

(** [f.write] on an empty file either writes the whole text or, for a text
    UTF-8 cannot encode, raises and writes nothing. *)
Lemma py_write_cases f content fs :
  tree fs !! f = Some (File "") →
  (has_surrogate content = true ∧
   py_write f content fs = (fs, inl UnicodeEncodeError)) ∨
  (has_surrogate content = false ∧
   py_write f content fs = (set_node f (File content) fs, inr tt)).
Proof.
  intros Hf. unfold py_write, raise, ok. rewrite Hf.
  destruct (has_surrogate content); [by left|by right].
Qed.

(** What [write_file] leaves once [os.makedirs] and [open] have returned:
    the directory, and the file truncated. *)
Lemma write_file_opened directory filename fs fs1 fs2 f :
  os_makedirs directory fs = (fs1, inr tt) →
  py_open_w (os_path_join directory filename) fs1 = (fs2, inr f) →
  tree fs2 !! f = Some (File "") ∧ f ≠ [] ∧
  isdir fs2 directory = true ∧
  read_file fs2 (os_path_join directory filename) = Some "" ∧
  ∀ content,
    isdir (set_node f (File content) fs2) directory = true ∧
    read_file (set_node f (File content) fs2)
      (os_path_join directory filename) = Some content.
Proof.
  intros Hmk Hopen.
  pose proof (os_makedirs_isdir _ _ _ Hmk) as Hdir.
  destruct (py_open_w_ok _ _ _ _ Hopen) as (-> & Hf & Hnd & Hread).
  set (fs3 := set_node f (File "") fs1) in *.
  assert (Hk13 : dirs_kept (tree fs1) (tree fs3)).
  { apply dirs_kept_set. by left. }
  assert (Hf3 : node_at (tree fs3) f = Some (File "")).
  { by apply node_at_set_eq. }
  split; [apply lookup_insert_eq|]. split; [done|]. split; [|split].
  - eapply isdir_dirs_kept; [|exact Hk13|]; done.
  - by apply Hread.
  - intros content.
    assert (Hk34 : dirs_kept (tree fs3)
                     (tree (set_node f (File content) fs3))).
    { apply dirs_kept_set. left. congruence. }
    split.
    + eapply isdir_dirs_kept; [|exact Hk34|]; [done|].
      eapply isdir_dirs_kept; [|exact Hk13|]; done.
    + apply Hread; [done| |by apply node_at_set_eq].
      eapply dirs_kept_trans; [exact Hk13|exact Hk34].
Qed.




(** An empty directory name makes [os.makedirs] raise before anything is
    written, and an empty filename makes [open] raise on the directory. *)
Example write_file_empty_directory :
  write_file Scenario.empty_context "" "verdict.txt" "report" Scenario.home
    = (Scenario.home, inl FileNotFoundError).
Proof. reflexivity. Qed.

Example write_file_empty_filename :
  (write_file Scenario.empty_context "court_reports" "" "report"
     Scenario.home).2 = inl IsADirectoryError.
Proof. vm_compute. reflexivity. Qed.

(** A report with a lone surrogate in it (a model can emit one in the JSON
    of its call): the earlier report is gone, the new one is not written. *)
Example write_file_unencodable_content :
  read_file Scenario.reported "court_reports/Leonardo da Vinci_verdict.txt"
    = Some "an earlier report" ∧
  (write_file Scenario.empty_context "court_reports"
     "Leonardo da Vinci_verdict.txt" Cases.broken_report Scenario.reported).2
    = inl UnicodeEncodeError ∧
  read_file
    (write_file Scenario.empty_context "court_reports"
       "Leonardo da Vinci_verdict.txt" Cases.broken_report
       Scenario.reported).1
    "court_reports/Leonardo da Vinci_verdict.txt" = Some "".
Proof. vm_compute. by repeat split. Qed.

(** Names the system refuses: one of 256 bytes, one with a null byte, one
    with a surrogate that cannot be escaped; a name of 255 bytes and one
    with an escaped byte are fine. *)
Example write_file_refused_names :
  (write_file Scenario.empty_context "court_reports" (Cases.long_name 256)
     "report" Scenario.home).2 = inl OSError ∧
  (write_file Scenario.empty_context "court_reports" Cases.name_with_nul
     "report" Scenario.home).2 = inl ValueError ∧
  (write_file Scenario.empty_context "court_reports" Cases.high_surrogate
     "report" Scenario.home).2 = inl UnicodeEncodeError ∧
  (write_file Scenario.empty_context "court_reports" (Cases.long_name 255)
     "report" Scenario.home).2
    = inr [("status", "success");
           ("path", "court_reports/" +:+ Cases.long_name 255)] ∧
  (write_file Scenario.empty_context "court_reports" Cases.lone_surrogate
     "report" Scenario.home).2
    = inr [("status", "success");
           ("path", "court_reports/" +:+ Cases.lone_surrogate)].
Proof. vm_compute. by repeat split. Qed.

(** Regular files and separators: a filename that ends with a separator is
    refused as a directory whether or not anything is there; a directory
    argument that names a regular file is refused as existing, with or
    without a trailing separator, and as no directory once a further name
    follows. *)
Example write_file_files_in_the_way :
  (write_file Scenario.empty_context "court_reports" "x/" "report"
     Scenario.home).2 = inl IsADirectoryError ∧
  (write_file Scenario.empty_context "court_reports"
     "Leonardo da Vinci_verdict.txt/" "report" Scenario.reported).2
    = inl IsADirectoryError ∧
  (write_file Scenario.empty_context
     "court_reports/Leonardo da Vinci_verdict.txt" "a.txt" "report"
     Scenario.reported).2 = inl FileExistsError ∧
  (write_file Scenario.empty_context
     "court_reports/Leonardo da Vinci_verdict.txt/" "a.txt" "report"
     Scenario.reported).2 = inl FileExistsError ∧
  (write_file Scenario.empty_context
     "court_reports/Leonardo da Vinci_verdict.txt/." "a.txt" "report"
     Scenario.reported).2 = inl NotADirectoryError ∧
  (write_file Scenario.empty_context
     "court_reports/Leonardo da Vinci_verdict.txt/x" "a.txt" "report"
     Scenario.reported).2 = inl NotADirectoryError.
Proof. vm_compute. by repeat split. Qed.

(** [os.path.join] on the names the scribe uses, and on an absolute
    filename, which replaces the directory. *)
Example os_path_join_report :
  os_path_join "court_reports" "Leonardo da Vinci_verdict.txt"
    = "court_reports/Leonardo da Vinci_verdict.txt" ∧
  os_path_join "court_reports/" "a.txt" = "court_reports/a.txt" ∧
  os_path_join "court_reports" "/tmp/a.txt" = "/tmp/a.txt".
Proof. by repeat split. Qed.

End FileTool.

(** * Properties of the runtime *)

Section Calls.

Implicit Types (w : World) (c : tool_call) (calls : list (string * tool_call)).

Lemma skeleton_app t1 t2 : skeleton (t1 ++ t2) = skeleton t1 ++ skeleton t2.
Proof. apply filter_app. Qed.

Lemma events_since_app w w' t :
  trace w' = trace w ++ t → events_since w w' = t.
Proof. intros H. unfold events_since. rewrite H. apply drop_app_length. Qed.

Lemma call_tool_trace c w : trace (call_tool c w).1 = trace w.
Proof.
  destruct c; simpl; try reflexivity.
  by destruct (write_file _ _ _ _ _) as [fs [e|r]].
Qed.

Lemma call_tool_session c w :
  session (call_tool c w).1 = state (apply_call c (context_of (session w))).
Proof.
  destruct c; simpl; try reflexivity.
  by destruct (write_file _ _ _ _ _) as [fs [e|r]].
Qed.

(** Only [exit_loop] escalates and only [write_file] raises. *)
Lemma call_tool_signal c w :
  match (call_tool c w).2 with
  | Normal => c ≠ CallExitLoop
  | Escalated => c = CallExitLoop
  | Raised _ => tool_of c = Tool.write_file
  end.
Proof.
  destruct c; simpl; try done.
  by destruct (write_file _ _ _ _ _) as [fs [e|r]].
Qed.

Lemma apply_call_escalate c tc : escalate (apply_call c tc) = escalate tc.
Proof. by destruct c. Qed.

Lemma context_of_apply_call c st :
  context_of (state (apply_call c (context_of st))) =
  apply_call c (context_of st).
Proof.
  pose proof (apply_call_escalate c (context_of st)) as H.
  destruct (apply_call c (context_of st)) as [st' e]. simpl in H.
  by subst e.
Qed.

Lemma run_calls_trace calls w w1 s :
  run_calls calls w = (w1, s) →
  ∃ t, trace w1 = trace w ++ t ∧ skeleton t = [].
Proof.
  revert w. induction calls as [|[who c] rest IH]; intros w; simpl.
  - intros [= <- _]. exists []. by rewrite app_nil_r.
  - destruct (call_tool c (log (Invoke who c) w)) as [w2 s2] eqn:Hc.
    pose proof (call_tool_trace c (log (Invoke who c) w)) as Ht.
    rewrite Hc in Ht; simpl in Ht.
    destruct s2.
    + intros Hrest. apply IH in Hrest as (t & Ht1 & Hsk).
      exists (Invoke who c :: t). split; [|done].
      rewrite Ht1, Ht. by rewrite <- app_assoc.
    + intros [= <- _]. by exists [Invoke who c].
    + intros [= <- _]. by exists [Invoke who c].
Qed.

(** The calls that ran form a prefix of the list, all of it when the run
    ended normally, and the session is what they leave. *)
Lemma run_calls_session calls w w1 s :
  run_calls calls w = (w1, s) →
  ∃ ran rest,
    calls = ran ++ rest ∧
    session w1 = state (apply_calls ran (context_of (session w))) ∧
    (s = Normal → rest = []).
Proof.
  revert w. induction calls as [|[who c] rest IH]; intros w; simpl.
  - intros [= <- <-]. by exists [], [].
  - destruct (call_tool c (log (Invoke who c) w)) as [w2 s2] eqn:Hc.
    pose proof (call_tool_session c (log (Invoke who c) w)) as Hs.
    rewrite Hc in Hs; simpl in Hs.
    assert (Hstop : ∀ s', s2 = s' → s' ≠ Normal → (w2, s') = (w1, s) →
      ∃ ran rest0, (who, c) :: rest = ran ++ rest0 ∧
        session w1 = state (apply_calls ran (context_of (session w))) ∧
        (s = Normal → rest0 = [])).
    { intros s' -> Hne [= <- <-]. exists [(who, c)], rest.
      split; [done|]. split; [exact Hs|]. intros ->. done. }
    destruct s2; [|by apply Hstop..].
    intros Hrest. apply IH in Hrest as (ran & rest0 & -> & Hsess & Hnormal).
    exists ((who, c) :: ran), rest0. split; [done|]. split; [|done].
    rewrite Hsess, Hs. unfold apply_calls; simpl.
    by rewrite context_of_apply_call.
Qed.

Lemma run_calls_signal calls w w1 s :
  run_calls calls w = (w1, s) → ended calls s.
Proof.
  unfold ended. revert w. induction calls as [|[who c] rest IH]; intros w; simpl.
  - intros [= _ <-]. intros who. apply not_elem_of_nil.
  - destruct (call_tool c (log (Invoke who c) w)) as [w2 s2] eqn:Hc.
    pose proof (call_tool_signal c (log (Invoke who c) w)) as Hsig.
    rewrite Hc in Hsig; simpl in Hsig.
    destruct s2.
    + intros Hrest. apply IH in Hrest. destruct s.
      * intros who' [Heq|Hin]%elem_of_cons; [congruence|].
        by apply (Hrest who').
      * destruct Hrest as [who' Hin]. exists who'. by apply elem_of_cons; right.
      * destruct Hrest as (who' & c' & Hin & Htool).
        exists who', c'. split; [by apply elem_of_cons; right|done].
    + intros [= _ <-]. exists who. subst c. apply elem_of_cons. by left.
    + intros [= _ <-]. exists who, c. split; [|done].
      apply elem_of_cons. by left.
Qed.

Lemma concat_lookup_cons {A} (queues : list (list A)) i x q :
  queues !! i = Some (x :: q) →
  concat queues ≡ₚ x :: concat (<[i := q]> queues).
Proof.
  revert i. induction queues as [|l ls IH]; intros [|i] Hi; simplify_eq/=.
  - reflexivity.
  - rewrite (IH _ Hi). symmetry. apply Permutation_middle.
Qed.

(** An interleaving loses and adds nothing. *)
Lemma interleave_Permutation {A} picks (queues : list (list A)) :
  interleave picks queues ≡ₚ concat queues.
Proof.
  revert queues. induction picks as [|i picks IH]; intros queues; simpl.
  - reflexivity.
  - destruct (queues !! i) as [[|x q]|] eqn:Hi; [apply IH| |apply IH].
    rewrite IH. symmetry. by apply concat_lookup_cons.
Qed.

(** Every order of two authors' calls is the interleaving of some picks. *)
Lemma interleave_complete {A} (l1 l2 l : list A) :
  merges l1 l2 l → ∃ picks, interleave picks [l1; l2] = l.
Proof.
  induction 1 as [|x l1 l2 l _ [picks IH]|x l1 l2 l _ [picks IH]].
  - by exists [].
  - exists (0 :: picks). simpl. by rewrite IH.
  - exists (1 :: picks). simpl. by rewrite IH.
Qed.

Lemma appends_to_app field calls1 calls2 :
  appends_to field (calls1 ++ calls2) =
  appends_to field calls1 + appends_to field calls2.
Proof. unfold appends_to. by rewrite filter_app, length_app. Qed.

Lemma appends_to_singleton field who c :
  appends_to field [(who, c)] = if appends_on field c then 1 else 0.
Proof.
  unfold appends_to. rewrite filter_cons; simpl.
  by destruct (appends_on field c).
Qed.

Lemma appends_to_Permutation field calls1 calls2 :
  calls1 ≡ₚ calls2 → appends_to field calls1 = appends_to field calls2.
Proof. intros Hp. unfold appends_to. by rewrite Hp. Qed.

Lemma count_set_state tc field v field' :
  field ≠ field' →
  count (state (set_state tc field v).1) field' = count (state tc) field'.
Proof. intros Hne. unfold count; simpl. by rewrite lookup_insert_ne. Qed.

Lemma count_append_state tc field v field' :
  count (state (append_state tc field v).1) field' =
  count (state tc) field' + (if String.eqb field field' then 1 else 0).
Proof.
  unfold count; simpl. destruct (String.eqb_spec field field') as [->|Hne].
  - rewrite lookup_insert_eq, length_app; simpl.
    by destruct (state tc !! field') as [[| |items]|].
  - rewrite lookup_insert_ne by done. lia.
Qed.

(** Lookups and appends add one point per append on the field. *)
Lemma count_apply_calls calls tc field :
  (∀ who c, (who, c) ∈ calls →
            tool_of c = Tool.wiki_tool ∨ tool_of c = Tool.append_state) →
  count (state (apply_calls calls tc)) field =
  count (state tc) field + appends_to field calls.
Proof.
  revert tc. induction calls as [|[who c] rest IH]; intros tc Hcalls.
  - unfold appends_to; simpl. lia.
  - change (apply_calls ((who, c) :: rest) tc)
      with (apply_calls rest (apply_call c tc)).
    rewrite IH by (intros who' c' Hin; apply (Hcalls who' c');
                   by apply elem_of_cons; right).
    change ((who, c) :: rest) with ([(who, c)] ++ rest).
    rewrite appends_to_app.
    destruct (Hcalls who c) as [Ht|Ht]; [by apply elem_of_cons; left|..];
      destruct c as [f v|f v| | | |]; try discriminate Ht.
    + rewrite appends_to_singleton. simpl. lia.
    + change (apply_call (CallAppendState f v) tc)
        with (append_state tc f v).1.
      rewrite count_append_state, appends_to_singleton. simpl. lia.
Qed.

End Calls.

(** * The evidence lists during the loop *)

Section LoopData.

Implicit Types (tc : ToolContext) (c : tool_call) (field : string).








End LoopData.

(** * Runs of the agents *)

Section Runs.

Context (llm : string → World → list tool_call) (sched : World → list nat).

Implicit Types (w : World) (a : Agent) (c : tool_call) (s : signal).

Lemma declared_iff a c : declared a c = true ↔ tool_of c ∈ tools a.
Proof. unfold declared. apply bool_decide_eq_true. Qed.

Lemma turn_elem a w who c :
  (who, c) ∈ turn llm a w ↔
  who = name a ∧ c ∈ llm (name a) w ∧ tool_of c ∈ tools a.
Proof.
  unfold turn. rewrite list_elem_of_fmap. split.
  - intros (c' & [= -> ->] & Hin).
    apply list_elem_of_filter in Hin as [Hd Hin].
    unfold declared in Hd. apply bool_decide_unpack in Hd. done.
  - intros (-> & Hin & Hd). exists c. split; [done|].
    apply list_elem_of_filter. split; [|done].
    unfold declared. by apply bool_decide_pack.
Qed.

(** A turn of a model agent: its declared calls run in order between its
    [Begin] and [Finish]. *)
Lemma LlmAgent_spec a w w1 s :
  LlmAgent llm a w = (w1, s) →
  ∃ t ran rest,
    trace w1 = trace w ++ Begin (name a) :: t ++ [Finish (name a)] ∧
    skeleton t = [] ∧
    turn llm a w = ran ++ rest ∧
    session w1 = state (apply_calls ran (context_of (session w))) ∧
    (s = Normal → rest = []) ∧
    ended (turn llm a w) s.
Proof.
  unfold LlmAgent.
  destruct (run_calls _ _) as [w2 s2] eqn:Hrun. intros [= <- <-].
  destruct (run_calls_trace _ _ _ _ Hrun) as (t & Ht & Hsk).
  destruct (run_calls_session _ _ _ _ Hrun) as (ran & rest & Hcalls & Hs & Hn).
  exists t, ran, rest. simpl in *.
  split; [by rewrite Ht, <- !app_assoc|].
  repeat split; try done. by eapply run_calls_signal.
Qed.

Lemma LlmAgent_skeleton a w w1 s :
  LlmAgent llm a w = (w1, s) →
  ∃ t, trace w1 = trace w ++ t ∧
       skeleton t = [Begin (name a); Finish (name a)].
Proof.
  intros (t & _ & _ & Ht & Hsk & _)%LlmAgent_spec.
  eexists. split; [exact Ht|].
  change (Begin (name a) :: t ++ [Finish (name a)])
    with ([Begin (name a)] ++ t ++ [Finish (name a)]).
  by rewrite !skeleton_app, Hsk.
Qed.

(** An agent that does not declare [write_file] cannot raise, and one that
    does not declare [exit_loop] cannot escalate. *)
Lemma LlmAgent_no_raise a w w1 s :
  Tool.write_file ∉ tools a →
  LlmAgent llm a w = (w1, s) → ∀ e, s ≠ Raised e.
Proof.
  intros Hno Hrun e ->.
  apply LlmAgent_spec in Hrun as (? & ? & ? & ? & ? & ? & ? & ? & Hend).
  destruct Hend as (who & c & Hin & Htool).
  apply turn_elem in Hin as (_ & _ & Hd). by rewrite Htool in Hd.
Qed.

Lemma LlmAgent_escalated a w w1 :
  LlmAgent llm a w = (w1, Escalated) →
  CallExitLoop ∈ llm (name a) w ∧ Tool.exit_loop ∈ tools a.
Proof.
  intros (? & ? & ? & ? & ? & ? & ? & ? & Hend)%LlmAgent_spec.
  destruct Hend as (who & Hin). by apply turn_elem in Hin as (_ & ? & ?).
Qed.

Lemma LlmAgent_normal a w w1 :
  LlmAgent llm a w = (w1, Normal) →
  Tool.exit_loop ∈ tools a → CallExitLoop ∉ llm (name a) w.
Proof.
  intros (? & ? & ? & ? & ? & ? & ? & ? & Hend)%LlmAgent_spec Hd Hin.
  apply (Hend (name a)), turn_elem. done.
Qed.

(** Whatever the interleaving, the calls of the fan-out are lookups and
    appends. *)
Lemma worker_calls w who c :
  (who, c) ∈ interleave (sched w) [turn llm admirer w; turn llm critic w] →
  tool_of c = Tool.wiki_tool ∨ tool_of c = Tool.append_state.
Proof.
  intros Hin. rewrite interleave_Permutation in Hin. simpl in Hin.
  rewrite app_nil_r in Hin.
  apply elem_of_app in Hin as [Hin|Hin];
    apply turn_elem in Hin as (_ & _ & Hd); simpl in Hd;
    apply elem_of_cons in Hd as [Hd|Hd]; [by left| |by left|];
    apply elem_of_cons in Hd as [Hd|Hd]; [by right| |by right|];
    by apply elem_of_nil in Hd.
Qed.

(** The fan-out: both workers' calls in some interleaving, all of them run;
    the fan-out neither escalates nor raises. *)
Lemma investigation_team_spec w w1 s :
  investigation_team llm sched w = (w1, s) →
  s = Normal ∧
  session w1 =
    state (apply_calls
             (interleave (sched w) [turn llm admirer w; turn llm critic w])
             (context_of (session w))) ∧
  ∃ t, trace w1 = trace w ++ t ∧
       skeleton t = [Begin "investigation_team"; Begin "admirer";
                     Begin "critic"; Finish "admirer"; Finish "critic";
                     Finish "investigation_team"].
Proof.
  unfold investigation_team, ParallelAgent. cbn [fmap list_fmap foldl].
  set (calls := interleave _ _).
  destruct (run_calls _ _) as [w2 s2] eqn:Hrun. intros [= <- <-].
  destruct (run_calls_trace _ _ _ _ Hrun) as (t & Ht & Hsk).
  destruct (run_calls_session _ _ _ _ Hrun) as (ran & rest & Hcalls & Hs & Hn).
  pose proof (run_calls_signal _ _ _ _ Hrun) as Hend.
  assert (Hworker : ∀ who c, (who, c) ∈ calls →
            tool_of c = Tool.wiki_tool ∨ tool_of c = Tool.append_state).
  { intros who c. apply worker_calls. }
  assert (Hnormal : s2 = Normal).
  { destruct s2 as [| |e]; [done|..].
    - destruct Hend as (who & Hin). by destruct (Hworker _ _ Hin).
    - destruct Hend as (who & c & Hin & Htool).
      destruct (Hworker _ _ Hin); congruence. }
  simpl in Hs. split; [done|]. split.
  - simpl. rewrite Hs, Hcalls, (Hn Hnormal), app_nil_r. done.
  - exists ([Begin "investigation_team"; Begin "admirer"; Begin "critic"]
            ++ t ++ [Finish "admirer"; Finish "critic";
                     Finish "investigation_team"]).
    split.
    + simpl. rewrite Ht. simpl. by rewrite <- !app_assoc.
    + by rewrite !skeleton_app, Hsk.
Qed.

Lemma run_loop_S sub_agents n w :
  run_loop sub_agents (S n) w =
  match run_round sub_agents w with
  | (w1, Normal) => run_loop sub_agents n w1
  | (w1, s) => (w1, s)
  end.
Proof. reflexivity. Qed.

(** One round of the trial: the fan-out completes, then the judge has its
    turn, and the round ends as the judge's turn ends. *)
Lemma trial_round_spec w w2 s :
  run_round [investigation_team llm sched; LlmAgent llm judge] w = (w2, s) →
  ∃ w1,
    investigation_team llm sched w = (w1, Normal) ∧
    LlmAgent llm judge w1 = (w2, s) ∧
    (∀ e, s ≠ Raised e) ∧
    ∃ t, trace w2 = trace w ++ t ∧ skeleton t = round_skeleton.
Proof.
  cbn [run_round].
  destruct (investigation_team llm sched w) as [w1 s1] eqn:Hteam.
  destruct (investigation_team_spec _ _ _ Hteam) as (-> & _ & t1 & Ht1 & Hsk1).
  destruct (LlmAgent llm judge w1) as [w2' s2] eqn:Hjudge.
  intros Hround. assert ((w2', s2) = (w2, s)) as [= -> ->].
  { by destruct s2. }
  exists w1. split; [done|]. split; [done|]. split.
  - eapply LlmAgent_no_raise; [|exact Hjudge].
    simpl. intros Hin. repeat (apply elem_of_cons in Hin as [Hin|Hin];
                               [discriminate|]).
    by apply elem_of_nil in Hin.
  - destruct (LlmAgent_skeleton _ _ _ _ Hjudge) as (t2 & Ht2 & Hsk2).
    exists (t1 ++ t2). split.
    + by rewrite Ht2, Ht1, <- app_assoc.
    + by rewrite skeleton_app, Hsk1, Hsk2.
Qed.



Lemma context_of_apply_calls calls st :
  context_of (state (apply_calls calls (context_of st))) =
  apply_calls calls (context_of st).
Proof.
  assert (H : ∀ tc, escalate (apply_calls calls tc) = escalate tc).
  { induction calls as [|[who c] rest IH]; intros tc; [done|].
    change (apply_calls ((who, c) :: rest) tc)
      with (apply_calls rest (apply_call c tc)).
    by rewrite IH, apply_call_escalate. }
  specialize (H (context_of st)).
  destruct (apply_calls calls (context_of st)) as [st' e]. simpl in H.
  by subst e.
Qed.

(** The workers declare no [set_state]. *)
Lemma worker_keeps_to_feedback a c :
  a = admirer ∨ a = critic → declared a c = true → judge_field c = true.
Proof. by intros [-> | ->]; destruct c. Qed.

(** What a round of the trial does to the session is the effect of a list
    of calls of tools their agents declare; if the judge gives [set_state]
    its feedback field only, so does every call of the round. *)
Lemma trial_round_calls w w2 s :
  run_round [investigation_team llm sched; LlmAgent llm judge] w = (w2, s) →
  ∃ calls,
    Forall (λ tagged, loop_call tagged = true) calls ∧
    ((∀ w', Forall (λ c, judge_field c = true) (llm "judge" w')) →
     Forall (λ tagged, judge_field tagged.2 = true) calls) ∧
    session w2 = state (apply_calls calls (context_of (session w))).
Proof.
  intros (w1 & Hteam & Hjudge & _ & _)%trial_round_spec.
  apply investigation_team_spec in Hteam as (_ & Hs1 & _).
  apply LlmAgent_spec in Hjudge
    as (t & ran & rest & _ & _ & Hturn & Hs2 & _ & _).
  set (fan := interleave _ _) in Hs1.
  exists (fan ++ ran). split; [|split].
  - apply Forall_app. split; apply Forall_forall; intros [who c] Hin.
    + unfold fan in Hin. rewrite interleave_Permutation in Hin.
      simpl in Hin. rewrite app_nil_r in Hin. unfold loop_call.
      apply elem_of_app in Hin as [Hin|Hin];
        apply turn_elem in Hin as (-> & _ & Hd);
        apply declared_iff in Hd; rewrite Hd; simpl;
        by rewrite ?orb_true_r.
    + assert (Hin' : (who, c) ∈ turn llm judge w1).
      { rewrite Hturn. apply elem_of_app. by left. }
      apply turn_elem in Hin' as (-> & Hraw & Hd).
      apply declared_iff in Hd.
      unfold loop_call. rewrite Hd. simpl.
      by rewrite ?orb_true_r.
  - intros Hfield.
    apply Forall_app. split; apply Forall_forall; intros [who c] Hin.
    + unfold fan in Hin. rewrite interleave_Permutation in Hin.
      simpl in Hin. rewrite app_nil_r in Hin.
      apply elem_of_app in Hin as [Hin|Hin];
        apply turn_elem in Hin as (_ & _ & Hd);
        apply declared_iff in Hd;
        eapply worker_keeps_to_feedback; eauto.
    + assert (Hin' : (who, c) ∈ turn llm judge w1).
      { rewrite Hturn. apply elem_of_app. by left. }
      apply turn_elem in Hin' as (_ & Hraw & _).
      pose proof (Hfield w1) as Hall. rewrite Forall_forall in Hall.
      by apply Hall.
  - unfold apply_calls. rewrite foldl_app. fold (apply_calls fan).
    fold (apply_calls ran). rewrite Hs2, Hs1.
    by rewrite context_of_apply_calls.
Qed.

(** The session after the trial is the session after some rounds of such
    calls, at most six of them. *)
Lemma court_trial_rounds w w1 s :
  court_trial llm sched w = (w1, s) →
  ∃ rounds,
    (length rounds ≤ 6)%nat ∧
    Forall (Forall (λ tagged, loop_call tagged = true)) rounds ∧
    ((∀ w', Forall (λ c, judge_field c = true) (llm "judge" w')) →
     Forall (Forall (λ tagged, judge_field tagged.2 = true)) rounds) ∧
    session w1 =
      state (after_rounds rounds (length rounds) (context_of (session w))).
Proof.
  unfold court_trial, LoopAgent.
  destruct (run_loop _ _ _) as [w2 s2] eqn:Hloop. intros [= <- <-]. simpl.
  change (session w) with (session (log (Begin "court_trial") w)).
  revert Hloop. generalize (log (Begin "court_trial") w). generalize 6.
  intros n. induction n as [|n IH]; intros w0.
  - intros [= <- <-]. exists []. by repeat split.
  - rewrite run_loop_S.
    destruct (run_round _ w0) as [w3 s3] eqn:Hround.
    destruct (trial_round_calls _ _ _ Hround) as (calls & Hcalls & Hkeep & Hs).
    assert (Hone : ∃ rounds, (length rounds ≤ S n)%nat ∧
              Forall (Forall (λ tagged, loop_call tagged = true)) rounds ∧
              ((∀ w', Forall (λ c, judge_field c = true) (llm "judge" w')) →
               Forall (Forall (λ tagged, judge_field tagged.2 = true))
                 rounds) ∧
              session w3 = state (after_rounds rounds (length rounds)
                                    (context_of (session w0)))).
    { exists [calls]. split; [simpl; lia|]. split; [by repeat constructor|].
      split; [intros Hfield; by repeat constructor; auto|].
      unfold after_rounds. simpl. by rewrite app_nil_r. }
    destruct s3; [|by intros [= <- <-]..].
    intros Hrest. apply IH in Hrest as (rounds & Hlen & Hall & Hkeeps & Hs').
    exists (calls :: rounds). split; [simpl; lia|].
    split; [by constructor|]. split; [intros Hfield; constructor; auto|].
    rewrite Hs', Hs, context_of_apply_calls.
    unfold after_rounds, apply_calls. simpl. by rewrite foldl_app.
Qed.



End Runs.



(** * The judge *)

Section Judge.

Implicit Types (w : World) (st : gmap string value).

Lemma decide_counts_cases (pos neg : nat) :
  decide_counts pos neg =
  if (neg <? 4)%nat then
    Some (1, [CallSetState "judge_feedback" (VStr (more_controversies neg))])
  else if (pos <? 4)%nat then
    Some (2, [CallSetState "judge_feedback" (VStr (more_achievements pos))])
  else Some (3, [CallExitLoop]).
Proof.
  unfold decide_counts, decision_rules. cbn [list_find applies fmap option_fmap
    option_map mbind option_bind action].
  destruct (Nat.ltb_spec neg 4) as [Hn|Hn]; [reflexivity|].
  destruct (Nat.ltb_spec pos 4) as [Hp|Hp]; [reflexivity|].
  apply Nat.leb_le in Hn, Hp. rewrite Hn, Hp. reflexivity.
Qed.

(** The judge's calls contain [exit_loop] exactly when both sides have four
    points, and otherwise write [judge_feedback] only. *)
Lemma judge_calls_exit st :
  CallExitLoop ∈ judge_calls st ↔
  (4 ≤ count st "pos_data" ∧ 4 ≤ count st "neg_data")%nat.
Proof.
  unfold judge_calls, judge_decision. rewrite decide_counts_cases.
  destruct (Nat.ltb_spec (count st "neg_data") 4) as [Hn|Hn];
    [|destruct (Nat.ltb_spec (count st "pos_data") 4) as [Hp|Hp]].
  - split; [|lia]. intros [Hin|Hin]%elem_of_cons; [discriminate|].
    by apply elem_of_nil in Hin.
  - split; [|lia]. intros [Hin|Hin]%elem_of_cons; [discriminate|].
    by apply elem_of_nil in Hin.
  - split; [done|]. intros _. apply elem_of_cons. by left.
Qed.

Lemma judge_calls_field st :
  Forall (λ c, judge_field c = true) (judge_calls st).
Proof.
  unfold judge_calls, judge_decision. rewrite decide_counts_cases.
  destruct (_ <? 4)%nat; [|destruct (_ <? 4)%nat]; by repeat constructor.
Qed.

End Judge.

Section JudgeTurn.

Context (llm : string → World → list tool_call).


End JudgeTurn.


(** * Two points per worker and round *)

Section TwoRounds.

Context (llm : string → World → list tool_call) (sched : World → list nat).

(** Each worker appends exactly two items per round, the admirer to
    [pos_data] and the critic to [neg_data]; the judge calls [exit_loop]
    exactly when both lists have four items, and writes nothing but its
    feedback. *)
Hypothesis admirer_two : ∀ w, appends_two "pos_data" (llm "admirer" w).
Hypothesis critic_two : ∀ w, appends_two "neg_data" (llm "critic" w).
Hypothesis judge_exits_iff : ∀ w,
  CallExitLoop ∈ llm "judge" w ↔
  (4 ≤ count (session w) "pos_data" ∧ 4 ≤ count (session w) "neg_data")%nat.
Hypothesis judge_feedback_only : ∀ w,
  Forall (λ c, judge_field c = true) (llm "judge" w).

Implicit Types (w : World) (a : Agent) (c : tool_call) (field : string).

Lemma appends_to_tagged who (l : list tool_call) field :
  appends_to field ((λ c, (who, c)) <$> l) =
  length (filter (λ c, appends_on field c) l).
Proof.
  unfold appends_to. induction l as [|c l IH]; [done|].
  rewrite fmap_cons, !filter_cons. simpl.
  destruct (appends_on field c); simpl; by rewrite IH.
Qed.

Lemma worker_appends a w written field :
  Tool.append_state ∈ tools a →
  appends_two written (llm (name a) w) →
  appends_to field (turn llm a w) = if String.eqb written field then 2 else 0.
Proof.
  intros Hdecl (x & y & Htwo). unfold turn. rewrite appends_to_tagged.
  rewrite list_filter_filter_l.
  2:{ intros c Hc. destruct c; try done. unfold declared.
      by apply bool_decide_pack. }
  rewrite <- (list_filter_filter_l _ (λ c, is_append c)).
  2:{ intros c Hc. by destruct c. }
  rewrite Htwo, !filter_cons, filter_nil. simpl.
  by destruct (String.eqb written field).
Qed.

(** The fan-out adds two items to each list, in whatever order the calls
    are interleaved. *)
Lemma fanout_counts w w1 s :
  investigation_team llm sched w = (w1, s) →
  s = Normal ∧
  count (session w1) "pos_data" = count (session w) "pos_data" + 2 ∧
  count (session w1) "neg_data" = count (session w) "neg_data" + 2.
Proof.
  intros (-> & Hs & _)%investigation_team_spec. split; [done|].
  assert (Happ : ∀ field,
    appends_to field
      (interleave (sched w) [turn llm admirer w; turn llm critic w]) =
    (if String.eqb "pos_data" field then 2 else 0) +
    (if String.eqb "neg_data" field then 2 else 0)).
  { intros field.
    rewrite (appends_to_Permutation _ _ _ (interleave_Permutation _ _)).
    simpl. rewrite app_nil_r, appends_to_app.
    rewrite (worker_appends admirer w "pos_data"), (worker_appends critic w "neg_data");
      [done|..]; simpl; try done;
      apply elem_of_cons; right; apply elem_of_cons; by left. }
  rewrite Hs, !count_apply_calls by apply worker_calls.
  by rewrite !Happ.
Qed.

Lemma count_apply_calls_feedback calls tc field :
  Forall (λ tagged, judge_field tagged.2 = true ∧
                    (tool_of tagged.2 = Tool.set_state ∨
                     tool_of tagged.2 = Tool.exit_loop)) calls →
  field ≠ "judge_feedback" →
  count (state (apply_calls calls tc)) field = count (state tc) field.
Proof.
  intros Hcalls Hfield. revert tc.
  induction Hcalls as [|[who c] rest [Hf Ht] _ IH]; intros tc; [done|].
  change (apply_calls ((who, c) :: rest) tc)
    with (apply_calls rest (apply_call c tc)).
  rewrite IH. simpl in Hf, Ht.
  destruct Ht as [Ht|Ht]; destruct c as [f v|f v| | | |];
    try discriminate Ht; [|done].
  apply String.eqb_eq in Hf as ->. cbn [apply_call].
  by rewrite count_set_state.
Qed.

(** The judge's turn leaves both lists as they are and escalates exactly
    when the judge calls [exit_loop]. *)
Lemma judge_turn w w1 s :
  LlmAgent llm judge w = (w1, s) →
  count (session w1) "pos_data" = count (session w) "pos_data" ∧
  count (session w1) "neg_data" = count (session w) "neg_data" ∧
  (s = Normal ∨ s = Escalated) ∧
  (s = Escalated ↔ CallExitLoop ∈ llm "judge" w).
Proof.
  intros Hrun.
  assert (Hnr : ∀ e, s ≠ Raised e).
  { eapply LlmAgent_no_raise; [|exact Hrun]. simpl. intros Hin.
    repeat (apply elem_of_cons in Hin as [Hin|Hin]; [discriminate|]).
    by apply elem_of_nil in Hin. }
  assert (Hexit : Tool.exit_loop ∈ tools judge).
  { simpl. apply elem_of_cons; right. apply elem_of_cons; by left. }
  destruct (LlmAgent_spec _ _ _ _ _ Hrun)
    as (t & ran & rest & _ & _ & Hturn & Hs & _ & _).
  assert (Hran : Forall (λ tagged, judge_field tagged.2 = true ∧
                    (tool_of tagged.2 = Tool.set_state ∨
                     tool_of tagged.2 = Tool.exit_loop)) ran).
  { apply Forall_forall. intros [who c] Hin.
    assert (Hin' : (who, c) ∈ turn llm judge w).
    { rewrite Hturn. apply elem_of_app. by left. }
    apply turn_elem in Hin' as (_ & Hraw & Hd). simpl. split.
    - pose proof (judge_feedback_only w) as Hall.
      rewrite Forall_forall in Hall. by apply Hall.
    - simpl in Hd. apply elem_of_cons in Hd as [Hd|Hd]; [by left|].
      apply elem_of_cons in Hd as [Hd|Hd]; [by right|].
      by apply elem_of_nil in Hd. }
  rewrite Hs, !count_apply_calls_feedback by done.
  split; [done|]. split; [done|]. split.
  - destruct s as [| |e]; [by left|by right|by destruct (Hnr e)].
  - split.
    + intros ->. by apply LlmAgent_escalated in Hrun as [? _].
    + intros Hin. destruct s as [| |e]; [|done|by destruct (Hnr e)].
      by destruct (LlmAgent_normal _ _ _ _ Hrun Hexit).
Qed.

Lemma trial_round_two w w2 s :
  run_round [investigation_team llm sched; LlmAgent llm judge] w = (w2, s) →
  count (session w2) "pos_data" = count (session w) "pos_data" + 2 ∧
  count (session w2) "neg_data" = count (session w) "neg_data" + 2 ∧
  (s = Normal ∨ s = Escalated) ∧
  (s = Escalated ↔
   (4 ≤ count (session w2) "pos_data" ∧
    4 ≤ count (session w2) "neg_data")%nat) ∧
  ∃ t, trace w2 = trace w ++ t ∧ skeleton t = round_skeleton.
Proof.
  intros (w1 & Hteam & Hjudge & _ & Ht)%trial_round_spec.
  destruct (fanout_counts _ _ _ Hteam) as (_ & Hp & Hn).
  destruct (judge_turn _ _ _ Hjudge) as (Hp' & Hn' & Hs & Hesc).
  rewrite Hp', Hn', Hp, Hn.
  split; [done|]. split; [done|]. split; [done|]. split; [|done].
  by rewrite Hesc, judge_exits_iff, Hp, Hn.
Qed.

(** C6.  With workers that append exactly two items to their own list per
    round and a judge that signals completion exactly when both lists have
    four items, the loop started on two empty lists stops at the end of its
    second round: the first round ends without the signal at 2 and 2 items,
    the second with the signal at 4 and 4, and no third round begins. *)
Theorem trial_ends_at_round_two w :
  session w !! "pos_data" = Some (VList []) →
  session w !! "neg_data" = Some (VList []) →
  ∃ w1,
    court_trial llm sched w = (w1, Escalated) ∧
    skeleton (events_since w w1) =
      [Begin "court_trial"] ++ round_skeleton ++ round_skeleton
      ++ [Finish "court_trial"] ∧
    count (session w1) "pos_data" = 4 ∧
    count (session w1) "neg_data" = 4.
Proof.
  intros Hpos Hneg. unfold court_trial, LoopAgent.
  set (w0 := log (Begin "court_trial") w).
  assert (H0 : count (session w0) "pos_data" = 0 ∧
               count (session w0) "neg_data" = 0).
  { unfold count; simpl. by rewrite Hpos, Hneg. }
  destruct H0 as [Hp0 Hn0].
  rewrite run_loop_S.
  destruct (run_round _ w0) as [w2 s2] eqn:Hround1.
  destruct (trial_round_two _ _ _ Hround1)
    as (Hp2 & Hn2 & Hs2 & Hesc2 & t1 & Ht1 & Hsk1).
  rewrite Hp0 in Hp2. rewrite Hn0 in Hn2.
  assert (s2 = Normal) as ->.
  { destruct Hs2 as [->| ->]; [done|]. destruct Hesc2 as [Hesc2 _].
    destruct Hesc2; [done|lia]. }
  rewrite run_loop_S.
  destruct (run_round _ w2) as [w3 s3] eqn:Hround2.
  destruct (trial_round_two _ _ _ Hround2)
    as (Hp3 & Hn3 & Hs3 & Hesc3 & t2 & Ht2 & Hsk2).
  rewrite Hp2 in Hp3. rewrite Hn2 in Hn3.
  assert (s3 = Escalated) as ->.
  { apply Hesc3. lia. }
  eexists. split; [reflexivity|]. simpl. split; [|done].
  rewrite (events_since_app w _
             ([Begin "court_trial"] ++ t1 ++ t2 ++ [Finish "court_trial"])).
  - by rewrite !skeleton_app, Hsk1, Hsk2.
  - simpl. rewrite Ht2, Ht1. simpl. by rewrite <- !app_assoc.
Qed.

End TwoRounds.

Lemma trial_ends_at_round_two_witness :
  ∃ w1,
    court_trial Scenario.diligent Scenario.alternate Scenario.cleared
      = (w1, Escalated) ∧
    skeleton (events_since Scenario.cleared w1) =
      [Begin "court_trial"] ++ round_skeleton ++ round_skeleton
      ++ [Finish "court_trial"] ∧
    count (session w1) "pos_data" = 4 ∧
    count (session w1) "neg_data" = 4.
Proof.
  apply (trial_ends_at_round_two Scenario.diligent Scenario.alternate).
  - intros w. by eexists _, _.
  - intros w. by eexists _, _.
  - intros w. apply judge_calls_exit.
  - intros w. apply judge_calls_field.
  - reflexivity.
  - reflexivity.
Defined.

(** * The whole pipeline on a well-behaved model *)

(** With the model that follows every instruction the pipeline ends
    normally after two rounds of the trial, with four points on each side,
    the feedback of the first round, and the report on disk. *)
Example pipeline_diligent :
  let '(w, s) :=
    root_agent Scenario.diligent Scenario.alternate Scenario.fresh in
  s = Normal ∧
  session w !! "topic" = Some (VStr "Leonardo da Vinci") ∧
  count (session w) "pos_data" = 4 ∧
  count (session w) "neg_data" = 4 ∧
  session w !! "judge_feedback" = Some (VStr (more_controversies 2)) ∧
  session w !! "pos_round" = Some (VInt 0) ∧
  read_file (disk w) "court_reports/Leonardo da Vinci_verdict.txt"
    = Some "report" ∧
  skeleton (trace w) =
    [Begin "historical_court_system";
     Begin "resetter"; Finish "resetter";
     Begin "clerk"; Finish "clerk";
     Begin "court_trial"] ++ round_skeleton ++ round_skeleton ++
    [Finish "court_trial";
     Begin "verdict_scribe"; Finish "verdict_scribe";
     Finish "historical_court_system"].
Proof. vm_compute. by repeat split. Qed.

(** * Further properties of the state tools *)

Section StateToolsMore.

Implicit Types (tc : ToolContext) (field : string) (v : value)
  (c : tool_call).

(** X1.  [append_state] writes the named field and no other: every other
    field reads as before, and so does the escalate flag. *)
Theorem append_state_frame tc field v :
  (∀ field', read (append_state tc field v).1 field' =
             if decide (field' = field)
             then Some (VList (match read tc field with
                               | Some (VList items) => items
                               | _ => []
                               end ++ [v]))
             else read tc field') ∧
  delete field (state (append_state tc field v).1) = delete field (state tc) ∧
  escalate (append_state tc field v).1 = escalate tc.
Proof.
  split; [|split; [|reflexivity]].
  - intros field'. case_decide as Heq.
    + subst field'. apply read_append_state_eq.
    + apply read_append_state_ne. congruence.
  - unfold append_state; simpl. apply delete_insert_eq.
Qed.

(** X2.  On a key the store does not have, [append_state] starts from the
    default [[]]: the key is created holding the one-element list of the
    value, and the store gains exactly that key. *)
Theorem append_state_missing_key tc field v :
  read tc field = None →
  read (append_state tc field v).1 field = Some (VList [v]) ∧
  dom (state (append_state tc field v).1) = {[field]} ∪ dom (state tc) ∧
  size (state (append_state tc field v).1) = S (size (state tc)).
Proof.
  intros Hnone. split; [|split].
  - by rewrite read_append_state_eq, Hnone.
  - unfold append_state; simpl. apply dom_insert_L.
  - unfold append_state; simpl. by apply map_size_insert_None.
Qed.

Lemma append_state_missing_key_witness :
  read (append_state Scenario.empty_context "pos_data" (VStr "a")).1
    "pos_data" = Some (VList [VStr "a"]) ∧
  dom (state (append_state Scenario.empty_context "pos_data" (VStr "a")).1)
    = {[ "pos_data" ]} ∪ dom (state Scenario.empty_context) ∧
  size (state (append_state Scenario.empty_context "pos_data" (VStr "a")).1)
    = S (size (state Scenario.empty_context)).
Proof.
  apply (append_state_missing_key Scenario.empty_context "pos_data" (VStr "a")).
  reflexivity.
Defined.

Lemma append_all_snoc tc field values v :
  append_all tc field (values ++ [v]) =
  (append_state (append_all tc field values) field v).1.
Proof. unfold append_all. by rewrite foldl_app. Qed.

(** X3.  Appends keep their order: after [append_state] has been called for
    a non-empty sequence of values on one field, the field holds the list it
    held before (none, if it held no list) followed by the values in the
    order of the calls, and every other field reads as before. *)
Theorem append_all_in_order tc field v values :
  read (append_all tc field (v :: values)) field =
    Some (VList (match read tc field with
                 | Some (VList items) => items
                 | _ => []
                 end ++ v :: values)) ∧
  ∀ field', read (append_all tc field (v :: values)) field' =
            if decide (field' = field)
            then read (append_all tc field (v :: values)) field
            else read tc field'.
Proof.
  split.
  - induction values as [|v' values IH] using rev_ind.
    + apply read_append_state_eq.
    + rewrite app_comm_cons, append_all_snoc, read_append_state_eq, IH.
      by rewrite <- app_assoc.
  - intros field'. case_decide as Heq; [by subst|].
    induction values as [|v' values IH] using rev_ind.
    + apply read_append_state_ne. congruence.
    + rewrite app_comm_cons, append_all_snoc, read_append_state_ne by congruence.
      exact IH.
Qed.

End StateToolsMore.

Section Composition.

Implicit Types (tc : ToolContext) (field : string) (v : value)
  (c : tool_call) (calls : list (string * tool_call)).

Lemma apply_calls_cons who c calls tc :
  apply_calls ((who, c) :: calls) tc = apply_calls calls (apply_call c tc).
Proof. reflexivity. Qed.

Lemma apply_calls_app calls1 calls2 tc :
  apply_calls (calls1 ++ calls2) tc = apply_calls calls2 (apply_calls calls1 tc).
Proof. unfold apply_calls. apply foldl_app. Qed.

Lemma append_state_commute tc field1 v1 field2 v2 :
  field1 ≠ field2 →
  (append_state (append_state tc field1 v1).1 field2 v2).1 =
  (append_state (append_state tc field2 v2).1 field1 v1).1.
Proof.
  intros Hne. unfold append_state, with_state; simpl.
  rewrite !lookup_insert_ne by congruence.
  f_equal. by apply insert_insert_ne.
Qed.

Lemma apply_call_commute c1 c2 field1 field2 tc :
  appends_only field1 c1 = true → appends_only field2 c2 = true →
  field1 ≠ field2 →
  apply_call c1 (apply_call c2 tc) = apply_call c2 (apply_call c1 tc).
Proof.
  intros H1 H2 Hne.
  destruct c1 as [|f1 v1| | |q1|]; try discriminate H1;
    destruct c2 as [|f2 v2| | |q2|]; try discriminate H2; try reflexivity.
  apply String.eqb_eq in H1, H2. subst f1 f2. cbn [apply_call].
  apply append_state_commute. congruence.
Qed.

Lemma apply_calls_commute c calls field1 field2 tc :
  appends_only field2 c = true →
  Forall (λ tagged, appends_only field1 tagged.2 = true) calls →
  field1 ≠ field2 →
  apply_calls calls (apply_call c tc) = apply_call c (apply_calls calls tc).
Proof.
  intros Hc Hcalls Hne. revert tc.
  induction Hcalls as [|[who c1] rest H1 _ IH]; intros tc; [done|].
  rewrite !apply_calls_cons, <- IH. f_equal.
  by eapply apply_call_commute.
Qed.

(** X4.  The two workers do not disturb each other.  When one list of calls
    only appends to one field (lookups aside) and another only to a
    different field, every order in which the two lists can be interleaved
    leaves the store as running the first list and then the second does. *)
Theorem interleaving_is_irrelevant calls1 calls2 calls field1 field2 tc :
  merges calls1 calls2 calls →
  Forall (λ tagged, appends_only field1 tagged.2 = true) calls1 →
  Forall (λ tagged, appends_only field2 tagged.2 = true) calls2 →
  field1 ≠ field2 →
  apply_calls calls tc = apply_calls (calls1 ++ calls2) tc.
Proof.
  intros Hm. revert tc.
  induction Hm as [|[who c] l1 l2 l _ IH|[who c] l1 l2 l _ IH];
    intros tc H1 H2 Hne; [done|..].
  - apply Forall_cons in H1 as [_ H1].
    rewrite <- app_comm_cons, !apply_calls_cons. by apply IH.
  - apply Forall_cons in H2 as [Hc H2]. simpl in Hc.
    rewrite apply_calls_cons, IH by done.
    rewrite !apply_calls_app, apply_calls_cons. f_equal.
    by eapply apply_calls_commute.
Qed.

Lemma interleaving_is_irrelevant_witness :
  apply_calls Cases.mixed_turns Scenario.empty_context =
  apply_calls (Cases.admirer_turn ++ Cases.critic_turn) Scenario.empty_context.
Proof.
  apply (interleaving_is_irrelevant Cases.admirer_turn Cases.critic_turn
           Cases.mixed_turns "pos_data" "neg_data").
  - repeat constructor.
  - repeat constructor.
  - repeat constructor.
  - discriminate.
Defined.

Lemma dom_apply_call c tc : dom (state tc) ⊆ dom (state (apply_call c tc)).
Proof.
  destruct c; simpl; try done; rewrite ?dom_insert_L; set_solver.
Qed.

(** X5.  No tool ever deletes a key: after any sequence of calls of any of
    the tools, every key the store had is still there. *)
Theorem no_call_deletes_a_key calls tc field :
  is_Some (read tc field) → is_Some (read (apply_calls calls tc) field).
Proof.
  unfold read. rewrite <- !elem_of_dom. revert tc.
  induction calls as [|[who c] rest IH]; intros tc Hin; [done|].
  rewrite apply_calls_cons. apply IH.
  by apply (dom_apply_call c tc).
Qed.

Lemma no_call_deletes_a_key_witness :
  is_Some (read (apply_calls [("resetter", CallResetCase);
                              ("clerk", CallSetState "topic" (VStr "Cicero"))]
                   Cases.with_notes) "notes").
Proof.
  apply (no_call_deletes_a_key _ Cases.with_notes "notes").
  by eexists.
Defined.

Lemma read_reset_case_other tc field :
  field ∉ reset_fields → read (reset_case tc).1 field = read tc field.
Proof.
  intros Hnot. unfold read, reset_case; simpl.
  rewrite !lookup_insert_ne; [done|..];
    intros <-; apply Hnot; unfold reset_fields; set_solver.
Qed.

Lemma read_reset_case_field tc1 tc2 field :
  field ∈ reset_fields →
  read (reset_case tc1).1 field = read (reset_case tc2).1 field.
Proof.
  intros Hin. unfold reset_fields in Hin. unfold read, reset_case; simpl.
  repeat (apply elem_of_cons in Hin as [->|Hin]; [by simplify_map_eq|]).
  by apply elem_of_nil in Hin.
Qed.

(** X6.  [reset_case] does not clear the store: a key other than the six it
    assigns keeps its value, and no key is removed. *)
Theorem reset_case_keeps_other_keys tc field :
  field ∉ reset_fields →
  read (reset_case tc).1 field = read tc field ∧
  dom (state tc) ⊆ dom (state (reset_case tc).1).
Proof.
  intros Hnot. split; [by apply read_reset_case_other|].
  apply (dom_apply_call CallResetCase tc).
Qed.

Lemma reset_case_keeps_other_keys_witness :
  read (reset_case Cases.with_notes).1 "notes"
    = read Cases.with_notes "notes" ∧
  dom (state Cases.with_notes) ⊆ dom (state (reset_case Cases.with_notes).1).
Proof.
  apply (reset_case_keeps_other_keys Cases.with_notes "notes").
  unfold reset_fields. intros Hin.
  repeat (apply elem_of_cons in Hin as [Hin|Hin]; [discriminate|]).
  by apply elem_of_nil in Hin.
Defined.

(** X7.  What [reset_case] leaves depends only on the keys it does not
    assign: two stores that agree outside the six keys are equal after the
    reset.  In particular a second reset changes nothing, and whatever any
    tool wrote to the six keys before the reset is forgotten. *)
Theorem reset_case_forgets tc1 tc2 :
  (∀ field, field ∉ reset_fields → read tc1 field = read tc2 field) →
  state (reset_case tc1).1 = state (reset_case tc2).1 ∧
  state (reset_case (reset_case tc1).1).1 = state (reset_case tc1).1.
Proof.
  intros Hagree.
  assert (Heq : ∀ a b, (∀ field, field ∉ reset_fields →
                          read a field = read b field) →
                state (reset_case a).1 = state (reset_case b).1).
  { intros a b Hab. apply map_eq. intros field.
    destruct (decide (field ∈ reset_fields)) as [Hin|Hnot].
    - by apply read_reset_case_field.
    - change (read (reset_case a).1 field = read (reset_case b).1 field).
      rewrite !read_reset_case_other by done. by apply Hab. }
  split; [by apply Heq|].
  apply Heq. intros field Hnot. by apply read_reset_case_other.
Qed.

Lemma reset_case_forgets_witness :
  state (reset_case (set_state Cases.with_notes "pos_data" (VStr "x")).1).1
    = state (reset_case Cases.with_notes).1 ∧
  state (reset_case
           (reset_case (set_state Cases.with_notes "pos_data" (VStr "x")).1).1).1
    = state (reset_case (set_state Cases.with_notes "pos_data" (VStr "x")).1).1.
Proof.
  apply (reset_case_forgets
           (set_state Cases.with_notes "pos_data" (VStr "x")).1
           Cases.with_notes).
  intros field Hnot. rewrite read_set_state.
  rewrite decide_False; [done|].
  intros <-. apply Hnot. unfold reset_fields. set_solver.
Defined.

Lemma set_all_snoc tc writes field v :
  set_all tc (writes ++ [(field, v)]) = (set_state (set_all tc writes) field v).1.
Proof. unfold set_all. by rewrite foldl_app. Qed.

(** X8.  The last write wins: after any sequence of [set_state] calls a
    field reads the value of the last call that named it, and reads as
    before when no call named it. *)
Theorem set_all_last_write_wins tc writes field :
  read (set_all tc writes) field =
  match last (filter (λ p, p.1 = field) writes) with
  | Some p => Some p.2
  | None => read tc field
  end.
Proof.
  induction writes as [|[f v] writes IH] using rev_ind; [done|].
  rewrite set_all_snoc, read_set_state, filter_app, filter_cons, filter_nil.
  simpl. case_decide as Heq.
  - by rewrite last_snoc.
  - by rewrite app_nil_r.
Qed.

End Composition.

(** * Further properties of the judge's rules *)

Section RulesMore.

(** X9.  The rules as the instruction writes them: for all counts at least
    one rule applies; rule 3 applies only when neither rule 1 nor rule 2
    does; and rules 1 and 2 both apply exactly when both sides have fewer
    than four points, which is when their order decides. *)
Theorem rules_cover_and_overlap (pos neg : nat) :
  length (filter (λ r, applies r pos neg) decision_rules) =
  if (neg <? 4)%nat && (pos <? 4)%nat then 2 else 1.
Proof.
  unfold decision_rules. rewrite !filter_cons, filter_nil. cbn [applies].
  destruct (Nat.ltb_spec neg 4), (Nat.ltb_spec pos 4),
    (Nat.leb_spec 4 pos), (Nat.leb_spec 4 neg); simpl; try reflexivity; lia.
Qed.

Lemma string_app_assoc (a b c : string) : (a +:+ b) +:+ c = a +:+ (b +:+ c).
Proof.
  induction a as [|x a IH]; [done|].
  change (String x ((a +:+ b) +:+ c) = String x (a +:+ (b +:+ c))).
  by rewrite IH.
Qed.

Lemma string_app_length (a b : string) :
  String.length (a +:+ b) = String.length a + String.length b.
Proof.
  induction a as [|x a IH]; [done|].
  change (S (String.length (a +:+ b)) = S (String.length a) + String.length b).
  by rewrite IH.
Qed.

(** Equal strings have equal endings. *)
Lemma string_app_suffix (x y t1 t2 : string) :
  String.length t1 = String.length t2 → x +:+ t1 = y +:+ t2 → t1 = t2.
Proof.
  intros Hlen Heq.
  assert (Hxy : String.length x = String.length y).
  { apply (f_equal String.length) in Heq.
    rewrite !string_app_length in Heq. lia. }
  revert y Hxy Heq. induction x as [|a x IH]; intros [|b y] Hxy;
    try discriminate Hxy; [done|].
  change (String a (x +:+ t1) = String b (y +:+ t2) → t1 = t2).
  injection Hxy as Hxy. intros [= _ Heq]. by eapply IH.
Qed.

(** X10.  The two feedback messages never coincide, whatever counts they
    cite: a worker reading [judge_feedback] can always tell which side the
    judge found short. *)
Theorem feedback_messages_differ (n m : nat) :
  more_controversies n ≠ more_achievements m.
Proof.
  unfold more_controversies, more_achievements.
  change " points. Please find MORE specific controversies or failed projects."
    with (" points. Please find MORE specific controversies or failed project"
          +:+ "s.").
  change " points. Please find MORE diverse achievements in science, art, or engineering."
    with (" points. Please find MORE diverse achievements in science, art, or engineerin"
          +:+ "g.").
  rewrite <- !(string_app_assoc (pretty _)), <- !(string_app_assoc "Found only ").
  intros Heq. apply string_app_suffix in Heq; [discriminate|reflexivity].
Qed.

End RulesMore.

(** * Further properties of the file tool *)

Section FileToolMore.

Implicit Types (fs : FS) (t : gmap (list string) node) (p cur : list string)
  (tc : ToolContext).




(** The four ways a call of [write_file] can go. *)
Lemma write_file_cases tc directory filename content fs :
  (∃ fs1 e, os_makedirs directory fs = (fs1, inl e) ∧
            write_file tc directory filename content fs = (fs1, inl e)) ∨
  (∃ fs1 e, os_makedirs directory fs = (fs1, inr tt) ∧
            py_open_w (os_path_join directory filename) fs1 = (fs1, inl e) ∧
            write_file tc directory filename content fs = (fs1, inl e)) ∨
  (∃ fs1 h, os_makedirs directory fs = (fs1, inr tt) ∧
            py_open_w (os_path_join directory filename) fs1
              = (set_node h (File "") fs1, inr h) ∧
            h ≠ [] ∧ node_at (tree fs1) h ≠ Some Dir ∧
            has_surrogate content = true ∧
            write_file tc directory filename content fs =
              (set_node h (File "") fs1, inl UnicodeEncodeError)) ∨
  (∃ fs1 h, os_makedirs directory fs = (fs1, inr tt) ∧
            py_open_w (os_path_join directory filename) fs1
              = (set_node h (File "") fs1, inr h) ∧
            h ≠ [] ∧ node_at (tree fs1) h ≠ Some Dir ∧
            has_surrogate content = false ∧
            write_file tc directory filename content fs =
              (set_node h (File content) (set_node h (File "") fs1),
               inr [("status", "success");
                    ("path", os_path_join directory filename)])).
Proof.
  unfold write_file, mbind, OS_bind.
  destruct (os_makedirs directory fs) as [fs1 [e|[]]] eqn:Hmk.
  - left. by exists fs1, e.
  - right.
    destruct (py_open_w (os_path_join directory filename) fs1)
      as [fs2 [e|h]] eqn:Hopen.
    + left. pose proof (py_open_w_raise _ _ _ _ Hopen) as ->. by exists fs1, e.
    + right. destruct (py_open_w_ok _ _ _ _ Hopen) as (-> & Hh & Hnd & _).
      destruct (py_write_cases h content (set_node h (File "") fs1))
        as [[Hs Hw]|[Hs Hw]]; [apply lookup_insert_eq|..]; rewrite Hw.
      * left. by exists fs1, h.
      * right. by exists fs1, h.
Qed.

End FileToolMore.

Section Paths.

Implicit Types (s t d f : string) (cur : list string).

Lemma string_app_cons c s t : String c s +:+ t = String c (s +:+ t).
Proof. reflexivity. Qed.

Lemma string_app_nil_r s : s +:+ "" = s.
Proof.
  induction s as [|c s IH]; [done|]. by rewrite string_app_cons, IH.
Qed.

Lemma ends_with_sep_snoc s : ends_with_sep (s +:+ "/") = true.
Proof.
  induction s as [|c s IH]; [done|]. rewrite string_app_cons.
  simpl. destruct (s +:+ "/") eqn:Hs; [|exact IH].
  by destruct s.
Qed.

Lemma ends_with_sep_app s t :
  t ≠ "" → ends_with_sep (s +:+ t) = ends_with_sep t.
Proof.
  intros Ht. induction s as [|c s IH]; [done|]. rewrite string_app_cons.
  simpl. destruct (s +:+ t) eqn:Hs; [|exact IH].
  destruct s; [done|discriminate].
Qed.

Lemma split_sep_no_sep s : has_sep s = false → split_sep s = [s].
Proof.
  induction s as [|c s IH]; [done|]. simpl.
  destruct (Ascii.eqb c "/"); [done|]. intros Hs. by rewrite IH.
Qed.

Lemma split_sep_app_sep s t :
  has_sep s = false → split_sep (s +:+ "/" +:+ t) = s :: split_sep t.
Proof.
  induction s as [|c s IH]; [done|]. rewrite string_app_cons. simpl.
  destruct (Ascii.eqb c "/"); [done|]. intros Hs. by rewrite IH.
Qed.

(** A text without surrogates is its own file-system encoding. *)
Lemma no_surrogate s :
  has_surrogate s = false → unencodable s = false ∧ fs_bytes s = s.
Proof.
  induction s as [|c1 s IH]; [done|].
  destruct s as [|c2 s]; [done|].
  change (has_surrogate (String c1 (String c2 s)))
    with (surrogate_at c1 c2 || has_surrogate (String c2 s)).
  intros [Hs Hrest]%orb_false_iff. destruct (IH Hrest) as [Hu Hb]. split.
  - change (unencodable (String c1 (String c2 s)))
      with ((surrogate_at c1 c2 && negb (escaped c2))
            || unencodable (String c2 s)).
    by rewrite Hs, Hu.
  - destruct s as [|c3 s].
    + change (fs_bytes (String c1 (String c2 "")))
        with (String c1 (fs_bytes (String c2 ""))). by rewrite Hb.
    + change (fs_bytes (String c1 (String c2 (String c3 s))))
        with (if surrogate_at c1 c2 && escaped c2
              then String (if Nat.eqb (code c2) 178 then c3
                           else ascii_of_nat (code c3 + 64)) (fs_bytes s)
              else String c1 (fs_bytes (String c2 (String c3 s)))).
      by rewrite Hs, Hb.
Qed.

Lemma is_plain_unpack s :
  is_plain s = true →
  has_sep s = false ∧ is_special s = false ∧ s ≠ "" ∧
  starts_with_sep s = false ∧ ends_with_sep s = false.
Proof.
  unfold is_plain. intros [[[[Hsep Hsp]%andb_prop _]%andb_prop _]%andb_prop _]%andb_prop.
  apply negb_true_iff in Hsep, Hsp. split; [done|]. split; [done|].
  split; [by intros ->|]. split.
  - destruct s as [|c s]; [done|]. simpl in *.
    by destruct (Ascii.eqb c "/").
  - clear Hsp. induction s as [|c s IH]; [done|]. simpl in *.
    apply orb_false_iff in Hsep as [Hc Hs].
    destruct s; [done|]. by apply IH.
Qed.

(** What the system sees of a plain name: the name itself, short enough. *)
Lemma is_plain_bytes s :
  is_plain s = true →
  unencodable s = false ∧ has_nul s = false ∧ fs_bytes s = s ∧
  named s = true ∧ (String.length s ≤ NAME_MAX)%nat.
Proof.
  intros Hs. destruct (is_plain_unpack _ Hs) as (_ & _ & Hne & _).
  revert Hs. unfold is_plain.
  intros [[[_ Hnul%negb_true_iff]%andb_prop
             Hsur%negb_true_iff]%andb_prop Hlen%Nat.leb_le]%andb_prop.
  destruct (no_surrogate _ Hsur) as [Hu Hb].
  repeat split; try done. unfold named. by destruct (String.eqb_spec s "").
Qed.

Lemma descend_plain cur s : is_special s = false → descend cur s = cur ++ [s].
Proof.
  unfold is_special, descend. intros H.
  apply orb_false_iff in H as [H ->]. by rewrite H.
Qed.

Lemma os_path_join_plain d f :
  is_plain d = true → starts_with_sep f = false →
  os_path_join d f = d +:+ "/" +:+ f.
Proof.
  intros (_ & _ & Hne & _ & Hend)%is_plain_unpack Hf. unfold os_path_join.
  rewrite Hf, Hend. by destruct d.
Qed.

Lemma plain_path_facts d rest :
  is_plain d = true →
  String.eqb d "" = false ∧
  String.eqb (d +:+ "/" +:+ rest) "" = false ∧
  starts_with_sep (d +:+ "/" +:+ rest) = false.
Proof.
  intros (_ & _ & Hne & Hst & _)%is_plain_unpack.
  destruct d as [|c d]; [done|]. by rewrite string_app_cons.
Qed.

Lemma fs_length_plain (comps : list string) :
  Forall (λ c, is_plain c = true) comps →
  (fs_length comps ≤ length comps * S NAME_MAX)%nat.
Proof.
  induction 1 as [|c rest Hc _ IH]; [done|].
  destruct (is_plain_bytes _ Hc) as (_ & _ & Hb & _ & Hlen).
  change (fs_length (c :: rest))
    with (String.length (fs_bytes c) +
          match rest with [] => 0 | _ => S (fs_length rest) end)%nat.
  change (length (c :: rest) * S NAME_MAX)%nat
    with (S NAME_MAX + length rest * S NAME_MAX)%nat.
  rewrite Hb. destruct rest; [|lia].
  change (length (@nil string) * S NAME_MAX)%nat with 0%nat. lia.
Qed.

(** A path of up to three plain names reaches the kernel as these names. *)
Lemma kernel_path_plain path (comps : list string) :
  split_sep path = comps →
  Forall (λ c, is_plain c = true) comps → (length comps ≤ 3)%nat →
  kernel_path path = inr comps.
Proof.
  intros Hsplit Hplain Hlen. unfold kernel_path. rewrite Hsplit.
  assert (existsb unencodable comps = false) as ->.
  { clear Hsplit Hlen. induction Hplain as [|c rest Hc _ IH]; [done|]. simpl.
    by destruct (is_plain_bytes _ Hc) as (-> & _). }
  assert (existsb has_nul comps = false) as ->.
  { clear Hsplit Hlen. induction Hplain as [|c rest Hc _ IH]; [done|]. simpl.
    by destruct (is_plain_bytes _ Hc) as (_ & -> & _). }
  destruct (String.eqb_spec path "") as [->|_].
  { subst comps. by apply Forall_cons in Hplain as [? _]. }
  assert (Nat.leb PATH_MAX (fs_length comps) = false) as ->.
  { apply Nat.leb_gt. pose proof (fs_length_plain _ Hplain).
    unfold PATH_MAX, NAME_MAX in *. nia. }
  f_equal. clear Hsplit Hlen.
  induction Hplain as [|c rest Hc _ IH]; [done|]. cbn [List.filter].
  destruct (is_plain_bytes _ Hc) as (_ & _ & Hb & -> & _).
  by rewrite fmap_cons, Hb, IH.
Qed.

End Paths.

Section FileEdges.

Implicit Types (fs : FS) (p cur : list string) (tc : ToolContext)
  (directory filename content d f : string).

Lemma node_at_set_ne fs p q n :
  p ≠ q → node_at (tree (set_node p n fs)) q = node_at (tree fs) q.
Proof.
  intros Hne. destruct q as [|x q]; [done|]. simpl. by rewrite lookup_insert_ne.
Qed.

(** A call whose three system calls returned: what it leaves. *)
Lemma write_file_success tc directory filename content fs fs1 fs2 h :
  os_makedirs directory fs = (fs1, inr tt) →
  py_open_w (os_path_join directory filename) fs1 = (fs2, inr h) →
  has_surrogate content = false →
  write_file tc directory filename content fs =
    (set_node h (File content) (set_node h (File "") fs1),
     inr [("status", "success"); ("path", os_path_join directory filename)]) ∧
  dirs_kept (tree fs1)
    (tree (set_node h (File content) (set_node h (File "") fs1))) ∧
  isdir (set_node h (File content) (set_node h (File "") fs1)) directory
    = true ∧
  read_file (set_node h (File content) (set_node h (File "") fs1))
    (os_path_join directory filename) = Some content.
Proof.
  intros Hmk Hopen Henc.
  destruct (write_file_opened _ _ _ _ _ _ Hmk Hopen) as (_ & _ & _ & _ & Hall).
  destruct (py_open_w_ok _ _ _ _ Hopen) as (-> & Hh & Hnd & _).
  assert (Hkept : dirs_kept (tree fs1)
            (tree (set_node h (File content) (set_node h (File "") fs1)))).
  { eapply dirs_kept_trans; apply dirs_kept_set; left; [done|].
    rewrite node_at_set_eq by done. congruence. }
  split; [|split; [done|apply Hall]].
  destruct (write_file_cases tc directory filename content fs)
    as [(fa & e & Hmk' & _)|[(fa & e & Hmk' & Hopen' & _)
       |[(fa & h' & Hmk' & Hopen' & _ & _ & Hs & _)
        |(fa & h' & Hmk' & Hopen' & _ & _ & _ & Hw)]]];
    rewrite Hmk in Hmk'; simplify_eq; [rewrite Hopen in Hopen'..];
    simplify_eq; [congruence|exact Hw].
Qed.

Lemma py_open_w_trailing path fs :
  path = "" ∨ ends_with_sep path = true →
  ∃ e, (py_open_w path fs).2 = inl e.
Proof.
  intros [->|Hend]; [by eexists|]. unfold py_open_w, raise.
  destruct (kernel_path path) as [e|comps]; [by eexists|].
  destruct (walk _ _ _) as [e|parent]; [by eexists|].
  rewrite Hend, orb_true_r. by eexists.
Qed.

(** X11.  Empty names.  With an empty directory name [os.makedirs] raises
    [FileNotFoundError] and the disk is left as it was; with an empty
    filename the joined path names a directory and the call raises as well.
    Neither ever returns a status. *)
Theorem write_file_empty_names tc directory filename content fs :
  write_file tc "" filename content fs = (fs, inl FileNotFoundError) ∧
  ∃ e, (write_file tc directory "" content fs).2 = inl e.
Proof.
  split; [reflexivity|].
  destruct (write_file_cases tc directory "" content fs)
    as [(fs1 & e & _ & ->)|[(fs1 & e & _ & _ & ->)
       |[(fs1 & h & _ & _ & _ & _ & _ & ->)
        |(fs1 & h & _ & Hopen & _)]]]; [by eexists..|].
  exfalso.
  destruct (py_open_w_trailing (os_path_join directory "") fs1) as [e He].
  - unfold os_path_join. simpl.
    destruct (String.eqb_spec directory "") as [->|_]; [by left|]. simpl.
    destruct (ends_with_sep directory) eqn:Hend; right.
    + by rewrite string_app_nil_r.
    + change ("/" +:+ "") with "/". apply ends_with_sep_snoc.
  - by rewrite Hopen in He.
Qed.

Lemma os_makedirs_plain d fs :
  is_plain d = true →
  node_at (tree fs) (cwd fs) = Some Dir →
  (∀ s, node_at (tree fs) (cwd fs ++ [d]) ≠ Some (File s)) →
  ∃ fs1,
    os_makedirs d fs = (fs1, inr tt) ∧ cwd fs1 = cwd fs ∧
    node_at (tree fs1) (cwd fs ++ [d]) = Some Dir ∧
    ∀ q, q ≠ cwd fs ++ [d] → node_at (tree fs1) q = node_at (tree fs) q.
Proof.
  intros Hd Hcwd Hnf.
  destruct (is_plain_unpack _ Hd) as (Hsep & Hsp & Hne & Hst & _).
  destruct (is_plain_bytes _ Hd) as (Hu & Hn & Hb & _ & Hlen).
  destruct (plain_path_facts d "" Hd) as (He & _).
  unfold os_makedirs, start. rewrite He, Hst, (split_sep_no_sep _ Hsep).
  cbn [mk_walk fs_length all_empty forallb]. rewrite He.
  unfold py_path_error. rewrite Hu, Hn, Hb, Nat.add_0_r.
  assert (Nat.leb PATH_MAX (String.length d) = false) as ->.
  { apply Nat.leb_gt. unfold PATH_MAX, NAME_MAX in *. lia. }
  assert (Nat.ltb NAME_MAX (String.length d) = false) as ->.
  { apply Nat.ltb_ge. lia. }
  rewrite Hcwd, (descend_plain _ _ Hsp), Hsp. unfold raise, ok.
  destruct (node_at (tree fs) (cwd fs ++ [d])) as [[|s]|] eqn:Hnode.
  - by exists fs.
  - by destruct (Hnf s).
  - exists (set_node (cwd fs ++ [d]) Dir fs).
    split; [done|]. split; [done|]. split; [apply node_at_set_dir|].
    intros q Hq. by apply node_at_set_ne.
Qed.

Lemma snoc_ne {A} (l : list A) x y : l ++ [x; y] ≠ l ++ [x].
Proof.
  intros Heq. apply (f_equal length) in Heq.
  rewrite !length_app in Heq. simpl in Heq. lia.
Qed.

Lemma snoc_ne_self {A} (l : list A) x : l ≠ l ++ [x].
Proof.
  intros Heq. apply (f_equal length) in Heq.
  rewrite !length_app in Heq. simpl in Heq. lia.
Qed.

(** X12.  Plain names always work.  When the directory and the filename are
    plain names (not empty, not [.] or [..], no separator, no null byte, no
    surrogate, at most 255 bytes), the content holds no surrogate, the
    working directory is there, no regular file sits where the directory
    goes and no directory where the file goes, [write_file] returns
    [{"status": "success", "path": directory/filename}], the directory
    exists and the file holds the content. *)
Theorem write_file_plain_names tc d f content fs :
  is_plain d = true → is_plain f = true →
  has_surrogate content = false →
  node_at (tree fs) (cwd fs) = Some Dir →
  (∀ s, node_at (tree fs) (cwd fs ++ [d]) ≠ Some (File s)) →
  node_at (tree fs) (cwd fs ++ [d; f]) ≠ Some Dir →
  ∃ fs',
    write_file tc d f content fs =
      (fs', inr [("status", "success"); ("path", d +:+ "/" +:+ f)]) ∧
    isdir fs' d = true ∧
    read_file fs' (d +:+ "/" +:+ f) = Some content.
Proof.
  intros Hd Hf Henc Hcwd0 Hnf Hnd.
  destruct (is_plain_unpack _ Hd) as (Hdsep & Hdsp & _).
  destruct (is_plain_bytes _ Hd) as (_ & _ & _ & _ & Hdlen).
  destruct (is_plain_unpack _ Hf) as (Hfsep & Hfsp & Hfne & Hfst & Hfend).
  destruct (is_plain_bytes _ Hf) as (_ & _ & _ & _ & Hflen).
  destruct (plain_path_facts d f Hd) as (_ & Hpe & Hps).
  pose proof (os_path_join_plain d f Hd Hfst) as Hjoin.
  destruct (os_makedirs_plain d fs Hd Hcwd0 Hnf)
    as (fs1 & Hmk & Hcwd & Hdir & Hrest).
  assert (Hopen : ∃ fs2 h, py_open_w (d +:+ "/" +:+ f) fs1 = (fs2, inr h)).
  { unfold py_open_w, start.
    rewrite (kernel_path_plain _ [d; f]), Hps, Hcwd.
    2:{ by rewrite (split_sep_app_sep _ _ Hdsep), (split_sep_no_sep _ Hfsep). }
    2:{ by repeat constructor. }
    2:{ simpl. lia. }
    cbn [removelast List.last]. rewrite !(walk_unfold _ _ [d]).
    rewrite (Hrest _ (snoc_ne_self _ _)), Hcwd0.
    assert (Nat.ltb NAME_MAX (String.length d) = false) as ->.
    { apply Nat.ltb_ge. lia. }
    rewrite (descend_plain _ _ Hdsp), walk_unfold, Hdir, Hfsp.
    rewrite ends_with_sep_app, ends_with_sep_app, Hfend by (done || by destruct f).
    assert (Nat.ltb NAME_MAX (String.length f) = false) as ->.
    { apply Nat.ltb_ge. lia. }
    rewrite <- app_assoc. cbn [app orb]. rewrite (Hrest _ (snoc_ne _ _ _)).
    unfold raise, ok.
    destruct (node_at (tree fs) (cwd fs ++ [d; f])) as [[|s]|]; [done|..];
      by eexists _, _. }
  destruct Hopen as (fs2 & h & Hopen). rewrite <- Hjoin in Hopen.
  destruct (write_file_success tc d f content fs fs1 fs2 h Hmk Hopen Henc)
    as (Hw & _ & Hisdir & Hread).
  rewrite Hjoin in Hw, Hread. by eexists.
Qed.

Lemma write_file_plain_names_witness :
  ∃ fs',
    write_file Scenario.empty_context "court_reports" "Nero_verdict.txt"
      "report" Scenario.reported =
      (fs', inr [("status", "success");
                 ("path", "court_reports" +:+ "/" +:+ "Nero_verdict.txt")]) ∧
    isdir fs' "court_reports" = true ∧
    read_file fs' ("court_reports" +:+ "/" +:+ "Nero_verdict.txt")
      = Some "report".
Proof.
  apply (write_file_plain_names Scenario.empty_context "court_reports"
           "Nero_verdict.txt" "report" Scenario.reported).
  - vm_compute. reflexivity.
  - vm_compute. reflexivity.
  - vm_compute. reflexivity.
  - vm_compute. reflexivity.
  - intros s. vm_compute. discriminate.
  - vm_compute. discriminate.
Defined.

(** X13.  A filename with a separator in it.  When the directory and the
    two names of the filename are plain, the working directory is there, no
    regular file sits where the directory goes and nothing exists under the
    first name of the filename in it, [open] raises [FileNotFoundError]: no
    file is written and no status returned, yet the directory has been
    created and stays. *)
Theorem write_file_nested_filename tc d a rest content fs :
  is_plain d = true → is_plain a = true → is_plain rest = true →
  node_at (tree fs) (cwd fs) = Some Dir →
  (∀ s, node_at (tree fs) (cwd fs ++ [d]) ≠ Some (File s)) →
  node_at (tree fs) (cwd fs ++ [d; a]) = None →
  (write_file tc d (a +:+ "/" +:+ rest) content fs).2
    = inl FileNotFoundError ∧
  isdir (write_file tc d (a +:+ "/" +:+ rest) content fs).1 d = true.
Proof.
  intros Hd Ha Hr Hcwd0 Hnf Hnone.
  destruct (is_plain_unpack _ Hd) as (Hdsep & Hdsp & _).
  destruct (is_plain_bytes _ Hd) as (_ & _ & _ & _ & Hdlen).
  destruct (is_plain_unpack _ Ha) as (Hasep & Hasp & _).
  destruct (is_plain_bytes _ Ha) as (_ & _ & _ & _ & Halen).
  destruct (is_plain_unpack _ Hr) as (Hrsep & _).
  destruct (plain_path_facts a rest Ha) as (_ & _ & Hast).
  destruct (plain_path_facts d (a +:+ "/" +:+ rest) Hd) as (_ & Hpe & Hps).
  pose proof (os_path_join_plain d _ Hd Hast) as Hjoin.
  destruct (os_makedirs_plain d fs Hd Hcwd0 Hnf)
    as (fs1 & Hmk & Hcwd & Hdir & Hrest).
  assert (Hopen : py_open_w (os_path_join d (a +:+ "/" +:+ rest)) fs1
                  = (fs1, inl FileNotFoundError)).
  { rewrite Hjoin. unfold py_open_w, start.
    rewrite (kernel_path_plain _ [d; a; rest]), Hps, Hcwd.
    2:{ by rewrite (split_sep_app_sep _ _ Hdsep),
          (split_sep_app_sep _ _ Hasep), (split_sep_no_sep _ Hrsep). }
    2:{ by repeat constructor. }
    2:{ simpl. lia. }
    cbn [removelast]. rewrite !(walk_unfold _ _ [d; a]).
    rewrite (Hrest _ (snoc_ne_self _ _)), Hcwd0.
    assert (Nat.ltb NAME_MAX (String.length d) = false) as ->.
    { apply Nat.ltb_ge. lia. }
    rewrite (descend_plain _ _ Hdsp), walk_unfold, Hdir.
    assert (Nat.ltb NAME_MAX (String.length a) = false) as ->.
    { apply Nat.ltb_ge. lia. }
    rewrite (descend_plain _ _ Hasp), <- app_assoc, walk_unfold.
    cbn [app]. by rewrite (Hrest _ (snoc_ne _ _ _)), Hnone. }
  destruct (write_file_cases tc d (a +:+ "/" +:+ rest) content fs)
    as [(fa & e & Hmk' & _)|[(fa & e & Hmk' & Hopen' & Hw)
       |[(fa & h & Hmk' & Hopen' & _)|(fa & h & Hmk' & Hopen' & _)]]];
    rewrite Hmk in Hmk'; simplify_eq; rewrite Hopen in Hopen'; simplify_eq.
  rewrite Hw. simpl. split; [done|]. by eapply os_makedirs_isdir.
Qed.

Lemma write_file_nested_filename_witness :
  (write_file Scenario.empty_context "court_reports"
     ("AC" +:+ "/" +:+ "DC_verdict.txt") "report" Scenario.home).2
    = inl FileNotFoundError ∧
  isdir (write_file Scenario.empty_context "court_reports"
           ("AC" +:+ "/" +:+ "DC_verdict.txt") "report" Scenario.home).1
    "court_reports" = true.
Proof.
  apply (write_file_nested_filename Scenario.empty_context "court_reports"
           "AC" "DC_verdict.txt" "report" Scenario.home).
  - vm_compute. reflexivity.
  - vm_compute. reflexivity.
  - vm_compute. reflexivity.
  - vm_compute. reflexivity.
  - intros s. vm_compute. discriminate.
  - vm_compute. reflexivity.
Defined.

End FileEdges.

Section FileReruns.

Implicit Types (fs : FS) (p : list string) (tc : ToolContext)
  (directory filename content : string).



(** X15.  Nothing else is touched.  When [write_file] raises, every file and
    directory that was there is still there unchanged, with one exception:
    when it is [f.write] that raises, on a content with a surrogate, the
    file that [open] had truncated is left empty.  When it returns, all but
    the one file it wrote, which was no directory before, is unchanged.  The
    working directory is never changed. *)
Theorem write_file_keeps_the_rest tc directory filename content fs :
  cwd (write_file tc directory filename content fs).1 = cwd fs ∧
  match (write_file tc directory filename content fs).2 with
  | inl e =>
      (∀ p n, tree fs !! p = Some n →
              tree (write_file tc directory filename content fs).1 !! p
                = Some n) ∨
      (e = UnicodeEncodeError ∧ has_surrogate content = true ∧
       ∃ target,
         tree (write_file tc directory filename content fs).1 !! target
           = Some (File "") ∧
         tree fs !! target ≠ Some Dir ∧
         ∀ p n, p ≠ target → tree fs !! p = Some n →
                tree (write_file tc directory filename content fs).1 !! p
                  = Some n)
  | inr _ =>
      has_surrogate content = false ∧
      ∃ target,
        tree (write_file tc directory filename content fs).1 !! target
          = Some (File content) ∧
        tree fs !! target ≠ Some Dir ∧
        ∀ p n, p ≠ target → tree fs !! p = Some n →
               tree (write_file tc directory filename content fs).1 !! p
                 = Some n
  end.
Proof.
  destruct (write_file_cases tc directory filename content fs)
    as [(fa & e & Hmk & ->)|[(fa & e & Hmk & _ & ->)
       |[(fa & h & Hmk & _ & Hh & Hnd & Henc & ->)
        |(fa & h & Hmk & _ & Hh & Hnd & Henc & ->)]]]; simpl;
    destruct (os_makedirs_keeps _ _ _ _ Hmk) as [Hcwd Hsub];
    (split; [done|]).
  - left. intros p n Hp. by eapply lookup_weaken.
  - left. intros p n Hp. by eapply lookup_weaken.
  - right. split; [done|]. split; [done|].
    exists h. split; [apply lookup_insert_eq|]. split.
    + intros Hdir. apply Hnd. destruct h as [|x h]; [done|]. simpl.
      by eapply lookup_weaken.
    + intros p n Hne Hp. rewrite lookup_insert_ne by done.
      by eapply lookup_weaken.
  - split; [done|].
    exists h. split; [apply lookup_insert_eq|]. split.
    + intros Hdir. apply Hnd. destruct h as [|x h]; [done|]. simpl.
      by eapply lookup_weaken.
    + intros p n Hne Hp. rewrite !lookup_insert_ne by done.
      by eapply lookup_weaken.
Qed.



End FileReruns.

Section Counting.

(** X17.  Appends are counted one by one.  Over any sequence of lookups and
    appends, on whatever fields and in whatever order, the number of points
    under a field grows by exactly the number of appends that name it; a
    field that held no list counts from zero. *)
Theorem appends_are_counted (calls : list (string * tool_call))
    (tc : ToolContext) (field : string) :
  Forall (λ tagged, tool_of tagged.2 = Tool.wiki_tool ∨
                    tool_of tagged.2 = Tool.append_state) calls →
  count (state (apply_calls calls tc)) field =
  count (state tc) field + appends_to field calls.
Proof.
  intros Hcalls. apply count_apply_calls. intros who c Hin.
  rewrite Forall_forall in Hcalls. apply (Hcalls (who, c) Hin).
Qed.

Lemma appends_are_counted_witness :
  count (state (apply_calls Cases.mixed_turns Cases.with_notes)) "pos_data" =
  count (state Cases.with_notes) "pos_data"
  + appends_to "pos_data" Cases.mixed_turns.
Proof.
  apply (appends_are_counted Cases.mixed_turns Cases.with_notes "pos_data").
  repeat (apply Forall_cons; split;
          [first [left; reflexivity | right; reflexivity]|]).
  apply Forall_nil. done.
Defined.

End Counting.
